(** * The 90/180 compliance engine of the Schengen calculator

    A shallow embedding of the pure date-interval functions of
    [src/src/main.tsx]: [normalizeTrips], [calculateUsedDaysWithinWindow],
    [canStayForPeriod], [getMaxSafeStayFromDate], and the presence-set
    codec of [useSchengenStore] ([updateTripsFromSet], [toggleDate],
    [addTripRange]).

    Dates.  The program stores a calendar date as an ISO string
    [YYYY-MM-DD], turns it into a [Date] with [parseISO], which is
    [new Date(y, m - 1, d)], and back with [format(_, 'yyyy-MM-dd')].  A
    calendar date is here its day number (a [Z], days counted from
    1 January 1970), and the string order used by [localeCompare] and by
    the default [sort] is the order of day numbers.

    The program is embedded twice.  In a time zone whose days all start at
    00:00 the ISO string, the [Date] at local midnight and the day number
    are three names of the same calendar day: [DateFns] has the [date-fns]
    functions on day numbers, and the functions at the top level are the
    program in such a zone.  Where the clocks are put forward at 00:00 a
    day has no midnight, [parseISO] gives its first instant and [isBefore]
    and [isAfter] see the difference: [Zoned] has the dates as instants of
    any zone and the functions of the usage on them.  [zoned_normalizeTrips],
    [zoned_used] and [zoned_canStayForPeriod_midnight] say how the two
    embeddings are related: they differ in one day, the first day of a
    window whose reference date has no 00:00. *)

From stdpp Require Import base list list_numbers gmap sorting strings.
From Stdlib Require Import ZArith Lia.

Local Open Scope Z_scope.

(** ** The date library, on day numbers

    [parseISO] and the comparisons as they are in a zone whose days all
    start at 00:00; [Zoned] has them for any zone. *)

Module DateFns.

Definition parseISO (dateStr : Z) : Z := dateStr.
Definition format (date : Z) : Z := date.
Definition addDays (date amount : Z) : Z := date + amount.
Definition subDaysPolyfill (date amount : Z) : Z := addDays date (- amount).
Definition isBefore (date dateToCompare : Z) : bool := date <? dateToCompare.
Definition isAfter (date dateToCompare : Z) : bool := dateToCompare <? date.
Definition differenceInCalendarDays (dateLeft dateRight : Z) : Z :=
  dateLeft - dateRight.
(** [eachDayOfInterval({start, end})]: the days from [start] to [end]; the
    program calls it with [start] not after [end]. *)
Definition eachDayOfInterval (start end_ : Z) : list Z :=
  seqZ start (end_ - start + 1).

End DateFns.
Import DateFns.

(** ** Types *)

Record Trip := mkTrip {
  trip_id : string;
  entryDate : Z;
  exitDate : Z
}.

Record Profile := mkProfile {
  profile_id : string;
  name : string;
  trips : list Trip
}.

Global Instance Trip_eq_dec : EqDecision Trip.
Proof. solve_decision. Defined.

(** [{ ...current, exitDate: maxExit }] *)
Definition withExit (t : Trip) (maxExit : Z) : Trip :=
  {| trip_id := trip_id t; entryDate := entryDate t; exitDate := maxExit |}.

(** ** normalizeTrips *)

(** [[...trips].sort((a, b) => a.entryDate.localeCompare(b.entryDate))]:
    a stable sort on the entry date. *)
Fixpoint insertByEntry (a : Trip) (sorted : list Trip) : list Trip :=
  match sorted with
  | [] => [a]
  | b :: rest =>
      if entryDate a <=? entryDate b then a :: b :: rest
      else b :: insertByEntry a rest
  end.

Definition sortByEntry (trips : list Trip) : list Trip :=
  foldr insertByEntry [] trips.

(** The loop [for (let i = 1; i < sorted.length; i++)] of [normalizeTrips],
    with its two variables [normalized] and [current]; [rest] is
    [sorted[i..]]. *)
Fixpoint normalizeLoop (normalized : list Trip) (current : Trip)
    (rest : list Trip) : list Trip :=
  match rest with
  | [] => normalized ++ [current]
  | next :: rest' =>
      let currentEnd := parseISO (exitDate current) in
      let nextStart := parseISO (entryDate next) in
      let adjacentDate := addDays currentEnd 1 in
      if isBefore nextStart adjacentDate || (nextStart =? adjacentDate) then
        let maxExit :=
          if isAfter (parseISO (exitDate next)) currentEnd
          then exitDate next else exitDate current in
        normalizeLoop normalized (withExit current maxExit) rest'
      else
        normalizeLoop (normalized ++ [current]) next rest'
  end.

Definition normalizeTrips (trips : list Trip) : list Trip :=
  match trips with
  | [] => []
  | _ :: _ =>
      match sortByEntry trips with
      | [] => []
      | current :: rest => normalizeLoop [] current rest
      end
  end.

(** ** calculateUsedDaysWithinWindow *)

(** One turn of [for (const trip of trips)]: what is added to [daysUsed]. *)
Definition overlapDays (windowStart refDateObj : Z) (trip : Trip) : Z :=
  let tripStart := parseISO (entryDate trip) in
  let tripEnd := parseISO (exitDate trip) in
  let overlapStart :=
    if isBefore tripStart windowStart then windowStart else tripStart in
  let overlapEnd :=
    if isAfter tripEnd refDateObj then refDateObj else tripEnd in
  if negb (isAfter overlapStart overlapEnd)
  then differenceInCalendarDays overlapEnd overlapStart + 1
  else 0.

Definition calculateUsedDaysWithinWindow (trips : list Trip)
    (referenceDate : Z) : Z :=
  let refDateObj := parseISO referenceDate in
  let windowStart := subDaysPolyfill refDateObj 179 in
  foldl (fun daysUsed trip => daysUsed + overlapDays windowStart refDateObj trip)
        0 trips.

(** ** canStayForPeriod *)

Record StayCheck := mkStayCheck {
  isAllowed : bool;
  violationDate : option Z;
  usedOnExit : Z
}.

(** The loop [for (let i = 0; i < days; i++)]: [fuel] is [days - i].  It
    returns the early [return] of the loop body, if one is taken. *)
Fixpoint scanDays (combinedTrips : list Trip) (start i : Z) (fuel : nat)
    : option StayCheck :=
  match fuel with
  | O => None
  | S fuel' =>
      let checkDate := addDays start i in
      let dateStr := format checkDate in
      let used := calculateUsedDaysWithinWindow combinedTrips dateStr in
      if 90 <? used then
        Some {| isAllowed := false;
                violationDate := Some (format (parseISO dateStr));
                usedOnExit := used |}
      else scanDays combinedTrips start (i + 1) fuel'
  end.

Definition tempTrip (plannedEntry plannedExit : Z) : Trip :=
  {| trip_id := "temp"; entryDate := plannedEntry; exitDate := plannedExit |}.

Definition combinedTrips (existingTrips : list Trip)
    (plannedEntry plannedExit : Z) : list Trip :=
  normalizeTrips (existingTrips ++ [tempTrip plannedEntry plannedExit]).

Definition canStayForPeriod (existingTrips : list Trip)
    (plannedEntry plannedExit : Z) : StayCheck :=
  let combined := combinedTrips existingTrips plannedEntry plannedExit in
  let start := parseISO plannedEntry in
  let end_ := parseISO plannedExit in
  let days := differenceInCalendarDays end_ start + 1 in
  match scanDays combined start 0 (Z.to_nat days) with
  | Some violation => violation
  | None =>
      let finalUsed := calculateUsedDaysWithinWindow combined plannedExit in
      {| isAllowed := true; violationDate := None; usedOnExit := finalUsed |}
  end.

(** ** getMaxSafeStayFromDate *)

Record MaxStay := mkMaxStay {
  maxDays : Z;
  untilDate : Z
}.

(** The loop [for (let i = 1; i <= 90; i++)] with its [break]: [fuel] is
    [91 - i]; the result is the final [safeLength]. *)
Fixpoint maxStayLoop (trips : list Trip) (plannedEntry : Z) (i : Z)
    (fuel : nat) (safeLength : Z) : Z :=
  match fuel with
  | O => safeLength
  | S fuel' =>
      let currentExit := addDays (parseISO plannedEntry) (i - 1) in
      let currentExitStr := format currentExit in
      let check := canStayForPeriod trips plannedEntry currentExitStr in
      if negb (isAllowed check) then safeLength
      else maxStayLoop trips plannedEntry (i + 1) fuel' i
  end.

Definition getMaxSafeStayFromDate (trips : list Trip) (plannedEntry : Z)
    : MaxStay :=
  let safeLength := maxStayLoop trips plannedEntry 1 90 0 in
  {| maxDays := safeLength;
     untilDate := format (addDays (parseISO plannedEntry) (safeLength - 1)) |}.

(** ** The presence-set codec of the store *)

(** The days a trip adds to the date set:
    [for (let i = 0; i <= days; i++) dateSet.add(format(addDays(start, i)))]. *)
Definition tripDates (t : Trip) : list Z :=
  let start := parseISO (entryDate t) in
  let end_ := parseISO (exitDate t) in
  let days := differenceInCalendarDays end_ start in
  (fun i => format (addDays start i)) <$> seqZ 0 (days + 1).

Definition addAll (dateSet : gset Z) (dates : list Z) : gset Z :=
  foldl (fun s d => s ∪ {[d]}) dateSet dates.

(** [p.trips.forEach(t => ...)] on a fresh [Set]: the first part of
    [toggleDate] and of [addTripRange]. *)
Definition expandTrips (trips : list Trip) : gset Z :=
  foldl (fun dateSet t => addAll dateSet (tripDates t)) ∅ trips.

Section Codec.

(** [crypto.randomUUID()]: [uuid k] is the identifier drawn by the [k]-th
    call made while one trip list is built. *)
Variable uuid : nat -> string.

(** The loop of [updateTripsFromSet] over [sortedDates[i..]]. *)
Fixpoint collapseLoop (newTrips : list Trip) (tripStart tripPrev : Z)
    (rest : list Z) : list Trip :=
  match rest with
  | [] =>
      newTrips ++ [ {| trip_id := uuid (length newTrips);
                       entryDate := tripStart; exitDate := tripPrev |} ]
  | curr :: rest' =>
      let prevDate := parseISO tripPrev in
      let currDate := parseISO curr in
      if differenceInCalendarDays currDate prevDate =? 1 then
        collapseLoop newTrips tripStart curr rest'
      else
        collapseLoop
          (newTrips ++ [ {| trip_id := uuid (length newTrips);
                            entryDate := tripStart; exitDate := tripPrev |} ])
          curr curr rest'
  end.

(** [Array.from(dateSet).sort()]: the dates of the set, each once, in
    ascending order (the insertion order of the [Set] is lost in the
    sort). *)
Definition sortedDates (dateSet : gset Z) : list Z :=
  merge_sort Z.le (elements dateSet).

(** The trip list that [updateTripsFromSet] builds: [[]] for an empty set,
    else the runs of consecutive days. *)
Definition collapse (dateSet : gset Z) : list Trip :=
  match sortedDates dateSet with
  | [] => []
  | first :: rest => collapseLoop [] first first rest
  end.

Definition updateTripsFromSet (profile : Profile) (dateSet : gset Z)
    : Profile :=
  {| profile_id := profile_id profile; name := name profile;
     trips := collapse dateSet |}.

(** The body of [toggleDate] for the active profile. *)
Definition toggleProfile (p : Profile) (dateStr : Z) : Profile :=
  let dateSet := expandTrips (trips p) in
  let dateSet' :=
    if decide (dateStr ∈ dateSet) then dateSet ∖ {[dateStr]}
    else dateSet ∪ {[dateStr]} in
  updateTripsFromSet p dateSet'.

Definition toggleDate (activeProfileId : string) (dateStr : Z)
    (prev : list Profile) : list Profile :=
  (fun p => if decide (profile_id p ≠ activeProfileId) then p
            else toggleProfile p dateStr) <$> prev.

(** The body of [addTripRange] for the active profile. *)
Definition addRangeProfile (p : Profile) (startDateStr endDateStr : Z)
    : Profile :=
  let dateSet := expandTrips (trips p) in
  let d1 := parseISO startDateStr in
  let d2 := parseISO endDateStr in
  let start := if isBefore d1 d2 then d1 else d2 in
  let end_ := if isAfter d1 d2 then d1 else d2 in
  let interval := eachDayOfInterval start end_ in
  updateTripsFromSet p (addAll dateSet (format <$> interval)).

Definition addTripRange (activeProfileId : string)
    (startDateStr endDateStr : Z) (prev : list Profile) : list Profile :=
  (fun p => if decide (profile_id p ≠ activeProfileId) then p
            else addRangeProfile p startDateStr endDateStr) <$> prev.

End Codec.

(** The interval of a trip, without its identity. *)
Definition dates (t : Trip) : Z * Z := (entryDate t, exitDate t).

(** ** Specification vocabulary *)

(** The Trip invariant of the data model. *)
Definition validTrip (t : Trip) : Prop := entryDate t <= exitDate t.

(** Day [d] is one of the calendar days of trip [t]. *)
Definition onTrip (t : Trip) (d : Z) : Prop := entryDate t <= d <= exitDate t.

(** Day [d] is a calendar day of some trip of the list. *)
Definition covers (l : list Trip) (d : Z) : Prop := Exists (fun t => onTrip t d) l.

Global Instance validTrip_dec t : Decision (validTrip t).
Proof. unfold validTrip. apply _. Defined.
Global Instance onTrip_dec t d : Decision (onTrip t d).
Proof. unfold onTrip. apply _. Defined.
Global Instance covers_dec l d : Decision (covers l d).
Proof. unfold covers. apply _. Defined.

(** The list is ascending by entry date, from [lo] on. *)
Fixpoint ascending (lo : Z) (l : list Trip) : Prop :=
  match l with
  | [] => True
  | t :: l' => lo <= entryDate t /\ ascending (entryDate t) l'
  end.

(** The list is ascending by entry date, from [lo] on, and each trip starts
    at least two days after the exit date of the one before it. *)
Fixpoint chain (lo : Z) (l : list Trip) : Prop :=
  match l with
  | [] => True
  | t :: l' =>
      lo <= entryDate t /\ chain (Z.max (entryDate t) (exitDate t + 2)) l'
  end.

(** The NormalizedIntervalSet invariant of the data model. *)
Definition separated (a b : Trip) : Prop :=
  entryDate a <= entryDate b /\ exitDate a + 2 <= entryDate b.

Definition NormalizedIntervalSet (l : list Trip) : Prop :=
  Forall validTrip l /\ StronglySorted separated l.

(** The dates are strictly increasing, all after [prev]. *)
Fixpoint increasing (prev : Z) (l : list Z) : Prop :=
  match l with
  | [] => True
  | x :: l' => prev < x /\ increasing x l'
  end.

(** The reference window of day [D]: the 180 days [D - 179 .. D]. *)
Definition window (D : Z) : list Z := seqZ (D - 179) 180.

(** The number of days of the window of [D] that satisfy [P]. *)
Definition daysInWindow (P : Z -> Prop) `{forall d, Decision (P d)} (D : Z) : Z :=
  Z.of_nat (length (filter P (window D))).

(** Sum of a list of integers. *)
Fixpoint sumZ (l : list Z) : Z :=
  match l with
  | [] => 0
  | x :: l' => x + sumZ l'
  end.

(** A trip from its two dates, for examples. *)
Definition interval (a b : Z) : Trip := mkTrip "t" a b.

(** ** The second implementation, [src/app/page.tsx]

    It keeps the selected days as [Date] objects and counts those between
    [windowStart] and [referenceDate].  A [Date] is modelled by its local
    time in milliseconds; [setDate(getDate() - 180)] moves it 180 days back
    at the same time of day (a change of the clock in between is not
    modelled). *)
Module AppPage.

Definition msPerDay : Z := 86400000.

Definition calculateDaysInWindow (selectedDates : list Z)
    (referenceDate : Z) : Z :=
  let windowStart := referenceDate - 180 * msPerDay in
  foldl (fun daysUsed date =>
           if (windowStart <=? date) && (date <=? referenceDate)
           then daysUsed + 1 else daysUsed)
        0 selectedDates.

End AppPage.

(** ** The rest of [src/src/main.tsx] *)

(** [Date.getDay()]: the day of the week, 0 for Sunday; day number 0 is
    taken to be 1 January 1970, a Thursday. *)
Definition getDay (date : Z) : Z := (date + 4) mod 7.

(** [startOfWeekPolyfill(date, { weekStartsOn })] *)
Definition startOfWeekPolyfill (date weekStartsOn : Z) : Z :=
  let day := getDay date in
  let diff := (if day <? weekStartsOn then 7 else 0) + day - weekStartsOn in
  addDays date (- diff).

(** [WindowBreakdown]: [trips.some(t => !isBefore(d, tStart) &&
    !isAfter(d, tEnd))]. *)
Definition isPresent (trips : list Trip) (d : Z) : bool :=
  existsb (fun t =>
             let tStart := parseISO (entryDate t) in
             let tEnd := parseISO (exitDate t) in
             negb (isBefore d tStart) && negb (isAfter d tEnd))
          trips.

(** [WindowBreakdown]: the two [forEach] loops of [violationDays], each
    pushing onto its array. *)
Definition presentDaysInWindow (trips : list Trip) (referenceDate : Z)
    : list Z :=
  let refDateObj := parseISO referenceDate in
  let windowStart := subDaysPolyfill refDateObj 179 in
  let checkDays := eachDayOfInterval windowStart refDateObj in
  foldl (fun present d => if isPresent trips d then present ++ [d] else present)
        [] checkDays.

Definition violationDays (trips : list Trip) (referenceDate : Z) : list Z :=
  foldl (fun violations d =>
           let dStr := format d in
           let used := calculateUsedDaysWithinWindow trips dStr in
           if 90 <? used then violations ++ [dStr] else violations)
        [] (presentDaysInWindow trips referenceDate).

(** [DashboardScreen]: the statistics computed on each render. *)
Record DashboardStats := mkDashboardStats {
  usedDays : Z;
  remaining : Z;
  maxStay : MaxStay
}.

Definition dashboardStats (trips : list Trip) (refDate : Z) : DashboardStats :=
  let usedDays := calculateUsedDaysWithinWindow trips refDate in
  let remaining := Z.max 0 (90 - usedDays) in
  let planningStart := addDays (parseISO refDate) 1 in
  let planningStartStr := format planningStart in
  let maxStay := getMaxSafeStayFromDate trips planningStartStr in
  {| usedDays := usedDays; remaining := remaining; maxStay := maxStay |}.

(** [CalculatorScreen]: the effect that sets [result], [duration], and
    [addDuration] (its value is the new [exit]). *)
Definition calculatorResult (trips : list Trip) (entry exit : Z)
    : option StayCheck :=
  let start := parseISO entry in
  let end_ := parseISO exit in
  if negb (isBefore end_ start) then Some (canStayForPeriod trips entry exit)
  else None.

Definition duration (entry exit : Z) : Z :=
  let start := parseISO entry in
  let end_ := parseISO exit in
  if isBefore end_ start then 0
  else differenceInCalendarDays end_ start + 1.

Definition addDuration (entry exit days : Z) : Z :=
  let start := parseISO entry in
  let currentEnd := parseISO exit in
  let base := if isBefore currentEnd start then start else currentEnd in
  let newEnd := addDays base days in
  format newEnd.

(** ** The store: profiles and the active profile *)

Record Store := mkStore {
  profiles : list Profile;
  activeProfileId : string
}.

Definition MAX_PROFILES : nat := 20.

(** The initial state of [useSchengenStore]. *)
Definition initialStore : Store :=
  {| profiles := [ {| profile_id := "default"; name := "Me"; trips := [] |} ];
     activeProfileId := "default" |}.

(** [profiles.find(p => p.id === activeProfileId) || profiles[0]];
    [None] is [undefined]. *)
Definition activeProfile (s : Store) : option Profile :=
  match List.find (fun p => bool_decide (profile_id p = activeProfileId s))
                  (profiles s) with
  | Some p => Some p
  | None => head (profiles s)
  end.

(** [addProfile(name)]; [newId] is the value of [crypto.randomUUID()]. *)
Definition addProfile (newId name : string) (s : Store) : Store :=
  if decide (MAX_PROFILES <= length (profiles s))%nat then s
  else {| profiles := profiles s ++
                        [ {| profile_id := newId; name := name; trips := [] |} ];
          activeProfileId := newId |}.

(** [removeProfile(id)]; [None] is the TypeError of [newProfiles[0].id]
    on an empty [newProfiles]. *)
Definition removeProfile (id : string) (s : Store) : option Store :=
  if decide (length (profiles s) <= 1)%nat then Some s
  else
    let newProfiles := filter (fun p => profile_id p <> id) (profiles s) in
    if decide (activeProfileId s = id) then
      match newProfiles with
      | p :: _ =>
          Some {| profiles := newProfiles; activeProfileId := profile_id p |}
      | [] => None
      end
    else Some {| profiles := newProfiles; activeProfileId := activeProfileId s |}.

(** [toggleDate] and [addTripRange] as state changes of the store. *)
Definition storeToggleDate (uuid : nat -> string) (dateStr : Z) (s : Store)
    : Store :=
  {| profiles := toggleDate uuid (activeProfileId s) dateStr (profiles s);
     activeProfileId := activeProfileId s |}.

Definition storeAddTripRange (uuid : nat -> string)
    (startDateStr endDateStr : Z) (s : Store) : Store :=
  {| profiles :=
       addTripRange uuid (activeProfileId s) startDateStr endDateStr (profiles s);
     activeProfileId := activeProfileId s |}.

(** [DashboardScreen]: the range-selection state and the click handlers. *)
Record RangeState := mkRangeState {
  rangeMode : bool;
  rangeStart : option Z
}.

Definition handleDatePress (uuid : nat -> string) (dateStr : Z)
    (st : RangeState * Store) : RangeState * Store :=
  let '(r, s) := st in
  if rangeMode r then
    match rangeStart r with
    | None => ({| rangeMode := rangeMode r; rangeStart := Some dateStr |}, s)
    | Some rangeStart =>
        ({| rangeMode := false; rangeStart := None |},
         storeAddTripRange uuid rangeStart dateStr s)
    end
  else (r, storeToggleDate uuid dateStr s).

Definition toggleRangeMode (r : RangeState) : RangeState :=
  {| rangeMode := negb (rangeMode r); rangeStart := None |}.

(** [markedDates.has(refDate)] for the active profile ([activeProfile.trips]
    throws when there is no profile at all: [None]). *)
Definition isPresentOnRefDate (refDate : Z) (s : Store) : option bool :=
  match activeProfile s with
  | Some p => Some (bool_decide (refDate ∈ expandTrips (trips p)))
  | None => None
  end.

(** The buttons "Outside" and "Inside":
    [isPresentOnRefDate && toggleDate(refDate)] and
    [!isPresentOnRefDate && toggleDate(refDate)]. *)
Definition pressOutside (uuid : nat -> string) (refDate : Z) (s : Store)
    : option Store :=
  match isPresentOnRefDate refDate s with
  | Some true => Some (storeToggleDate uuid refDate s)
  | Some false => Some s
  | None => None
  end.

Definition pressInside (uuid : nat -> string) (refDate : Z) (s : Store)
    : option Store :=
  match isPresentOnRefDate refDate s with
  | Some false => Some (storeToggleDate uuid refDate s)
  | Some true => Some s
  | None => None
  end.

(** The invariant of the store: the profile identifiers are distinct and
    the active one is among them. *)
Definition storeOk (s : Store) : Prop :=
  NoDup (profile_id <$> profiles s) /\
  activeProfileId s ∈ (profile_id <$> profiles s).

(** Trip [o] has the identity and entry date of
    an input trip, and the exit date of an input trip. *)
Definition fromInput (l : list Trip) (o : Trip) : Prop :=
  (exists t, t ∈ l /\ trip_id o = trip_id t /\ entryDate o = entryDate t) /\
  (exists t, t ∈ l /\ exitDate o = exitDate t).

(** ** More of [src/app/page.tsx]

    As in [AppPage], a [Date] is its local time in milliseconds;
    [setDate(getDate() + n)] moves it [n] days at the same time of day, and
    [toDateString()] names its calendar day, [date / msPerDay]. *)
Module AppPagePlan.


(** [calculateNextEntryDate]: the loop [for (i = length - 1; i >= 0; i--)]
    runs over the sorted dates from the last one. *)
Fixpoint nextEntryLoop (runningTotal : Z) (fromLast : list Z) : option Z :=
  match fromLast with
  | [] => None
  | date :: rest =>
      let runningTotal := runningTotal + 1 in
      if 90 <? runningTotal then Some (date + 180 * AppPage.msPerDay)
      else nextEntryLoop runningTotal rest
  end.

(** [now] is the value of [new Date()] in [calculateDaysInWindow()]. *)
Definition calculateNextEntryDate (selectedDates : list Z) (now : Z)
    : option Z :=
  let daysUsed := AppPage.calculateDaysInWindow selectedDates now in
  if daysUsed <=? 90 then None
  else
    let sortedDates := merge_sort Z.le selectedDates in
    nextEntryLoop 0 (reverse sortedDates).

(** [calculateFutureStayInfo]: [(daysUsedInWindow, availableDays)]. *)
Definition calculateFutureStayInfo (selectedDates : list Z) (futureDate : Z)
    : Z * Z :=
  let windowStart := futureDate - 180 * AppPage.msPerDay in
  let daysUsedInWindow :=
    foldl (fun n date =>
             if (windowStart <=? date) && (date <? futureDate) then n + 1 else n)
          0 selectedDates in
  let availableDays := Z.max 0 (90 - daysUsedInWindow) in
  (daysUsedInWindow, availableDays).

(** [getMaxContinuousStay]: the loop [for (let i = 0; i < 90; i++)] with
    its [break]; [fuel] is [90 - i]. *)
Fixpoint maxContinuousLoop (selectedDates : list Z) (fuel : nat)
    (maxDays checkDate : Z) : Z :=
  match fuel with
  | O => maxDays
  | S fuel' =>
      let availableDays := snd (calculateFutureStayInfo selectedDates checkDate) in
      if 0 <? availableDays then
        maxContinuousLoop selectedDates fuel' (maxDays + 1)
          (checkDate + AppPage.msPerDay)
      else maxDays
  end.

Definition getMaxContinuousStay (selectedDates : list Z) (startDate : Z) : Z :=
  maxContinuousLoop selectedDates 90 0 startDate.



End AppPagePlan.

(** ** The dates as instants of a time zone

    [parseISO] is [new Date(y, m - 1, d)], an instant of the time zone of
    the program: local 00:00 of the day, or, on a day on which the clocks
    are put forward at 00:00, the first local time that exists (01:00 in
    Africa/Cairo on 26 April 2024).  [isBefore] and [isAfter] compare
    instants, [addDays] keeps the local time of day, [differenceInCalendarDays]
    and [format] see the calendar day only.  Here a [Date] is the pair of
    its day number and its local time of day in milliseconds, and
    [dayStart d] is the first local time of day [d] (0 on a day that has a
    00:00); a local time before it does not exist and is moved forward by
    the length of the gap.  The functions above are these functions on the
    days alone; the lemmas of [Zoned] say where the two agree. *)
Module Zoned.
Section Zone.

Variable dayStart : Z -> Z.

Definition Date : Type := Z * Z.

(** The instant of a local time of a day. *)
Definition resolve (day time : Z) : Date :=
  (day, if time <? dayStart day then time + dayStart day else time).

Definition parseISO (dateStr : Z) : Date := resolve dateStr 0.
Definition format (date : Date) : Z := fst date.
Definition addDays (date : Date) (amount : Z) : Date :=
  if amount =? 0 then date else resolve (fst date + amount) (snd date).
Definition subDaysPolyfill (date : Date) (amount : Z) : Date :=
  addDays date (- amount).
Definition isBefore (date dateToCompare : Date) : bool :=
  (fst date <? fst dateToCompare) ||
  ((fst date =? fst dateToCompare) && (snd date <? snd dateToCompare)).
Definition isAfter (date dateToCompare : Date) : bool :=
  isBefore dateToCompare date.
(** [a.toISOString() === b.toISOString()] *)
Definition sameInstant (a b : Date) : bool :=
  (fst a =? fst b) && (snd a =? snd b).
Definition differenceInCalendarDays (dateLeft dateRight : Date) : Z :=
  fst dateLeft - fst dateRight.
(** [isWithinInterval(day, { start, end })] *)
Definition isWithinInterval (day start end_ : Date) : bool :=
  negb (isBefore day start) && negb (isAfter day end_).

(** [normalizeTrips], lines 70-100. *)
Fixpoint normalizeLoop (normalized : list Trip) (current : Trip)
    (rest : list Trip) : list Trip :=
  match rest with
  | [] => normalized ++ [current]
  | next :: rest' =>
      let currentEnd := parseISO (exitDate current) in
      let nextStart := parseISO (entryDate next) in
      let adjacentDate := addDays currentEnd 1 in
      if isBefore nextStart adjacentDate || sameInstant nextStart adjacentDate
      then
        let maxExit :=
          if isAfter (parseISO (exitDate next)) currentEnd
          then exitDate next else exitDate current in
        normalizeLoop normalized (withExit current maxExit) rest'
      else
        normalizeLoop (normalized ++ [current]) next rest'
  end.

Definition normalizeTrips (trips : list Trip) : list Trip :=
  match trips with
  | [] => []
  | _ :: _ =>
      match sortByEntry trips with
      | [] => []
      | current :: rest => normalizeLoop [] current rest
      end
  end.

(** [calculateUsedDaysWithinWindow], lines 102-122. *)
Definition overlapDays (windowStart refDateObj : Date) (trip : Trip) : Z :=
  let tripStart := parseISO (entryDate trip) in
  let tripEnd := parseISO (exitDate trip) in
  let overlapStart :=
    if isBefore tripStart windowStart then windowStart else tripStart in
  let overlapEnd :=
    if isAfter tripEnd refDateObj then refDateObj else tripEnd in
  if negb (isAfter overlapStart overlapEnd)
  then differenceInCalendarDays overlapEnd overlapStart + 1
  else 0.

Definition calculateUsedDaysWithinWindow (trips : list Trip)
    (referenceDate : Z) : Z :=
  let refDateObj := parseISO referenceDate in
  let windowStart := subDaysPolyfill refDateObj 179 in
  foldl (fun daysUsed trip => daysUsed + overlapDays windowStart refDateObj trip)
        0 trips.

(** [CalendarView]: [isInWindow] of the day [day] of the grid (a day of
    [eachDayOfInterval], at the start of that day). *)
Definition isInWindow (referenceDate day : Z) : bool :=
  let refDateObj := parseISO referenceDate in
  let windowStart := subDaysPolyfill refDateObj 179 in
  isWithinInterval (resolve day 0) windowStart refDateObj.

(** [canStayForPeriod], lines 124-161. *)
Fixpoint scanDays (combinedTrips : list Trip) (start : Date) (i : Z)
    (fuel : nat) : option StayCheck :=
  match fuel with
  | O => None
  | S fuel' =>
      let checkDate := addDays start i in
      let dateStr := format checkDate in
      let used := calculateUsedDaysWithinWindow combinedTrips dateStr in
      if 90 <? used then
        Some {| isAllowed := false;
                violationDate := Some (format (parseISO dateStr));
                usedOnExit := used |}
      else scanDays combinedTrips start (i + 1) fuel'
  end.

Definition canStayForPeriod (existingTrips : list Trip)
    (plannedEntry plannedExit : Z) : StayCheck :=
  let combined :=
    normalizeTrips (existingTrips ++ [tempTrip plannedEntry plannedExit]) in
  let start := parseISO plannedEntry in
  let end_ := parseISO plannedExit in
  let days := differenceInCalendarDays end_ start + 1 in
  match scanDays combined start 0 (Z.to_nat days) with
  | Some violation => violation
  | None =>
      let finalUsed := calculateUsedDaysWithinWindow combined plannedExit in
      {| isAllowed := true; violationDate := None; usedOnExit := finalUsed |}
  end.

(** [calculateDaysInWindow] of [src/app/page.tsx], lines 117-129:
    [windowStart.setDate(windowStart.getDate() - 180)] keeps the local time
    of [referenceDate]; [>=] and [<=] compare instants. *)
Definition calculateDaysInWindow (selectedDates : list Date)
    (referenceDate : Date) : Z :=
  let windowStart := resolve (fst referenceDate - 180) (snd referenceDate) in
  foldl (fun daysUsed date =>
           if negb (isBefore date windowStart)
              && negb (isBefore referenceDate date)
           then daysUsed + 1 else daysUsed)
        0 selectedDates.

(** The window of [referenceDate] starts later than its first day does:
    the reference date has no 00:00 and its first local time is not the
    first local time of the day 179 days before. *)
Definition lateWindowStart (referenceDate : Z) : bool :=
  snd (parseISO (referenceDate - 179)) <?
  snd (subDaysPolyfill (parseISO referenceDate) 179).

End Zone.

(** Africa/Cairo around 26 April 2024 (day 19839): that day the clocks go
    from 00:00 to 01:00. *)
Definition cairo (day : Z) : Z := if day =? 19839 then 3600000 else 0.

End Zoned.

(** Trip [t] ends on day [W], the first day of a window. *)
Definition endsOn (W : Z) (t : Trip) : Prop :=
  entryDate t <= W /\ exitDate t = W.

Global Instance endsOn_dec W t : Decision (endsOn W t).
Proof. unfold endsOn. apply _. Defined.

(** The day that the usage of [D] loses on a presence [P] without common
    or adjacent trips: the first day of the window, when the window starts
    late and the traveller is present that day and not the day after. *)
Definition windowEdgeLost (dayStart : Z -> Z) (P : Z -> Prop)
    `{forall d, Decision (P d)} (D : Z) : Z :=
  if Zoned.lateWindowStart dayStart D
     && bool_decide (P (D - 179) /\ ~ P (D - 178))
  then 1 else 0.

(** * Proofs *)

(** ** Sorting by entry date *)

Lemma ascending_weaken lo lo' l : lo' <= lo -> ascending lo l -> ascending lo' l.
Proof. destruct l; simpl; [done|]. intros ? [? ?]; split; [lia|done]. Qed.

Lemma insertByEntry_ascending a l lo :
  lo <= entryDate a -> ascending lo l -> ascending lo (insertByEntry a l).
Proof.
  revert lo. induction l as [|b l IH]; intros lo Ha Hl; simpl in *.
  - done.
  - destruct Hl as [Hb Hl].
    destruct (Z.leb_spec (entryDate a) (entryDate b)); simpl.
    + repeat split; [lia..|done].
    + split; [done|]. apply IH; [lia|done].
Qed.

Lemma sortByEntry_ascending l : exists lo, ascending lo (sortByEntry l).
Proof.
  induction l as [|a l [lo IH]]; simpl.
  - by exists 0.
  - exists (Z.min lo (entryDate a)). apply insertByEntry_ascending; [lia|].
    eapply ascending_weaken; [|done]. lia.
Qed.

Lemma insertByEntry_Permutation a l : insertByEntry a l ≡ₚ a :: l.
Proof.
  induction l as [|b l IH]; simpl; [done|].
  destruct (entryDate a <=? entryDate b); [done|].
  rewrite IH. apply Permutation_swap.
Qed.

Lemma sortByEntry_Permutation l : sortByEntry l ≡ₚ l.
Proof.
  induction l as [|a l IH]; simpl; [done|].
  by rewrite insertByEntry_Permutation, IH.
Qed.

Lemma sortByEntry_sorted_id lo l :
  ascending lo l -> sortByEntry l = l.
Proof.
  revert lo. induction l as [|a l IH]; intros lo Hl; simpl in *; [done|].
  destruct Hl as [_ Hl]. rewrite (IH _ Hl).
  destruct l as [|b l]; simpl in *; [done|].
  destruct Hl as [Hab _].
  by destruct (Z.leb_spec (entryDate a) (entryDate b)); [|lia].
Qed.

(** ** Coverage *)

Lemma covers_nil d : covers [] d <-> False.
Proof. unfold covers. by rewrite Exists_nil. Qed.

Lemma covers_cons t l d : covers (t :: l) d <-> onTrip t d \/ covers l d.
Proof. unfold covers. by rewrite Exists_cons. Qed.

Lemma covers_app l1 l2 d : covers (l1 ++ l2) d <-> covers l1 d \/ covers l2 d.
Proof. unfold covers. by rewrite Exists_app. Qed.

Lemma covers_elem_of l d : covers l d <-> exists t, t ∈ l /\ onTrip t d.
Proof. unfold covers. by rewrite Exists_exists. Qed.

Lemma covers_Permutation l1 l2 d : l1 ≡ₚ l2 -> covers l1 d <-> covers l2 d.
Proof.
  intros Hp. rewrite !covers_elem_of.
  split; intros (t & Ht & Hd); exists t; split; try done.
  - by rewrite <- Hp.
  - by rewrite Hp.
Qed.

(** ** The merging loop *)

Lemma normalizeLoop_acc acc c rest :
  normalizeLoop acc c rest = acc ++ normalizeLoop [] c rest.
Proof.
  revert acc c. induction rest as [|n rest IH]; intros acc c; simpl; [done|].
  destruct (_ || _).
  - apply IH.
  - rewrite (IH (acc ++ [c])), (IH ([] ++ [c])). by rewrite <- app_assoc.
Qed.

(** The loop, one output element at a time. *)
Lemma normalizeLoop_cons c n rest :
  normalizeLoop [] c (n :: rest) =
    if decide (entryDate n <= exitDate c + 1)
    then normalizeLoop [] (withExit c (Z.max (exitDate c) (exitDate n))) rest
    else c :: normalizeLoop [] n rest.
Proof.
  cbn [normalizeLoop]. unfold isBefore, isAfter, addDays, parseISO.
  case_decide as Hle.
  - replace ((entryDate n <? exitDate c + 1) || (entryDate n =? exitDate c + 1))
      with true by (symmetry; rewrite orb_true_iff, Z.ltb_lt, Z.eqb_eq; lia).
    replace (if exitDate c <? exitDate n then exitDate n else exitDate c)
      with (Z.max (exitDate c) (exitDate n))
      by (destruct (Z.ltb_spec (exitDate c) (exitDate n)); lia).
    done.
  - replace ((entryDate n <? exitDate c + 1) || (entryDate n =? exitDate c + 1))
      with false by (symmetry; rewrite orb_false_iff, Z.ltb_ge, Z.eqb_neq; lia).
    by rewrite normalizeLoop_acc.
Qed.

Lemma chain_weaken lo lo' l : lo' <= lo -> chain lo l -> chain lo' l.
Proof. destruct l; simpl; [done|]. intros ? [? ?]; split; [lia|done]. Qed.

Lemma normalizeLoop_chain c rest :
  ascending (entryDate c) rest ->
  chain (entryDate c) (normalizeLoop [] c rest).
Proof.
  revert c. induction rest as [|n rest IH]; intros c Hasc.
  - simpl. split; [lia|done].
  - rewrite normalizeLoop_cons. destruct Hasc as [Hcn Hasc]. case_decide.
    + apply (IH (withExit c _)). simpl. by eapply ascending_weaken.
    + simpl. split; [lia|]. eapply chain_weaken; [|by apply IH]. lia.
Qed.

Lemma normalizeLoop_covers c rest d :
  ascending (entryDate c) rest ->
  covers (normalizeLoop [] c rest) d <-> covers (c :: rest) d.
Proof.
  revert c. induction rest as [|n rest IH]; intros c Hasc.
  - done.
  - rewrite normalizeLoop_cons. destruct Hasc as [Hcn Hasc]. case_decide.
    + rewrite (IH (withExit c _)) by (simpl; by eapply ascending_weaken).
      rewrite !covers_cons.
      assert (onTrip (withExit c (Z.max (exitDate c) (exitDate n))) d
              <-> onTrip c d \/ onTrip n d) by (unfold onTrip; simpl; lia).
      tauto.
    + rewrite !covers_cons, (IH n Hasc), covers_cons. done.
Qed.

Lemma normalizeLoop_valid c rest :
  Forall validTrip (c :: rest) -> Forall validTrip (normalizeLoop [] c rest).
Proof.
  revert c. induction rest as [|n rest IH]; intros c Hv.
  - done.
  - rewrite normalizeLoop_cons. inversion Hv as [|? ? Hc Hv']; subst.
    inversion Hv' as [|? ? Hn Hr]; subst. case_decide.
    + apply IH. constructor; [|done]. unfold validTrip in *; simpl. lia.
    + constructor; [done|]. by apply IH.
Qed.

(** ** normalizeTrips *)

Lemma normalizeTrips_unfold t l :
  exists c rest,
    sortByEntry (t :: l) = c :: rest /\ ascending (entryDate c) rest /\
    normalizeTrips (t :: l) = normalizeLoop [] c rest.
Proof.
  destruct (sortByEntry_ascending (t :: l)) as [lo Hasc].
  unfold normalizeTrips.
  destruct (sortByEntry (t :: l)) as [|c rest] eqn:Hs.
  - apply (f_equal length) in Hs.
    rewrite (Permutation_length (sortByEntry_Permutation (t :: l))) in Hs.
    discriminate.
  - exists c, rest. destruct Hasc as [_ Hasc]. done.
Qed.

Lemma normalizeTrips_chain l : exists lo, chain lo (normalizeTrips l).
Proof.
  destruct l as [|t l]; [by exists 0|].
  destruct (normalizeTrips_unfold t l) as (c & rest & _ & Hasc & ->).
  exists (entryDate c). by apply normalizeLoop_chain.
Qed.

Lemma normalizeTrips_covers l d : covers (normalizeTrips l) d <-> covers l d.
Proof.
  destruct l as [|t l]; [done|].
  destruct (normalizeTrips_unfold t l) as (c & rest & Hs & Hasc & ->).
  rewrite normalizeLoop_covers by done. rewrite <- Hs.
  apply covers_Permutation, sortByEntry_Permutation.
Qed.

Lemma normalizeTrips_valid l :
  Forall validTrip l -> Forall validTrip (normalizeTrips l).
Proof.
  destruct l as [|t l]; [done|]. intros Hv.
  destruct (normalizeTrips_unfold t l) as (c & rest & Hs & Hasc & ->).
  apply normalizeLoop_valid. rewrite <- Hs.
  by rewrite (sortByEntry_Permutation (t :: l)).
Qed.

(** ** The shapes of a normalized list *)

Lemma chain_entries lo l : chain lo l -> Forall (fun t => lo <= entryDate t) l.
Proof.
  revert lo. induction l as [|t l IH]; intros lo; simpl; [done|].
  intros [Hlo Hc]. constructor; [done|].
  eapply Forall_impl; [by apply IH|]. simpl. lia.
Qed.

Lemma chain_ascending lo l : chain lo l -> ascending lo l.
Proof.
  revert lo. induction l as [|t l IH]; intros lo; simpl; [done|].
  intros [Hlo Hc]. split; [done|]. apply IH. eapply chain_weaken; [|done]. lia.
Qed.

Lemma chain_separated lo l : chain lo l -> StronglySorted separated l.
Proof.
  revert lo. induction l as [|t l IH]; intros lo; simpl; [constructor|].
  intros [Hlo Hc]. constructor; [by eapply IH|].
  eapply Forall_impl; [by apply chain_entries|]. unfold separated; simpl. lia.
Qed.

Lemma separated_chain lo l :
  Forall validTrip l -> StronglySorted separated l ->
  Forall (fun t => lo <= entryDate t) l -> chain lo l.
Proof.
  intros Hv Hs. revert lo. induction Hs as [|t l Hs IH Hsep]; intros lo Hlo.
  - done.
  - inversion Hv; subst. inversion Hlo; subst. simpl. split; [done|].
    apply IH; [done|]. eapply Forall_impl; [exact Hsep|].
    unfold separated, validTrip in *; simpl. lia.
Qed.

Lemma NormalizedIntervalSet_chain l :
  NormalizedIntervalSet l -> exists lo, chain lo l.
Proof.
  intros [Hv Hs]. destruct l as [|t l]; [by exists 0|].
  exists (entryDate t). apply separated_chain; [done..|].
  constructor; [lia|]. inversion Hs as [|? ? _ Hsep]; subst.
  eapply Forall_impl; [exact Hsep|]. unfold separated. simpl. lia.
Qed.

Lemma StronglySorted_lookup_lt {A} (R : relation A) l i j a b :
  StronglySorted R l -> l !! i = Some a -> l !! j = Some b -> (i < j)%nat ->
  R a b.
Proof.
  intros Hs. revert i j. induction Hs as [|x l Hs IH Hx]; intros i j Hi Hj Hij.
  - done.
  - destruct j as [|j]; [lia|]. destruct i as [|i]; simpl in *.
    + injection Hi as <-. rewrite Forall_forall in Hx. apply Hx.
      by eapply list_elem_of_lookup_2.
    + eapply IH; [done..|lia].
Qed.

Lemma StronglySorted_weaken {A} (R R' : relation A) l :
  (forall a b, R a b -> R' a b) -> StronglySorted R l -> StronglySorted R' l.
Proof.
  intros HR. induction 1 as [|x l Hs IH Hx]; constructor; [done|].
  eapply Forall_impl; [exact Hx|]. apply HR.
Qed.

Lemma normalizeLoop_no_merge lo c rest :
  chain lo (c :: rest) -> normalizeLoop [] c rest = c :: rest.
Proof.
  revert lo c. induction rest as [|n rest IH]; intros lo c Hc; [done|].
  rewrite normalizeLoop_cons. destruct Hc as [_ Hc].
  pose proof Hc as [Hn _]. case_decide; [lia|].
  f_equal. by eapply IH.
Qed.

Lemma normalizeTrips_chain_id lo l : chain lo l -> normalizeTrips l = l.
Proof.
  intros Hc. destruct l as [|t l]; [done|].
  unfold normalizeTrips.
  rewrite (sortByEntry_sorted_id lo) by (by apply chain_ascending).
  by eapply normalizeLoop_no_merge.
Qed.

Lemma normalizeTrips_idempotent l :
  normalizeTrips (normalizeTrips l) = normalizeTrips l.
Proof.
  destruct (normalizeTrips_chain l) as [lo Hc]. by eapply normalizeTrips_chain_id.
Qed.

(** ** Counting the days of a window *)

Lemma foldl_add_sumZ {A} (f : A -> Z) (l : list A) (z : Z) :
  foldl (fun acc x => acc + f x) z l = z + sumZ (f <$> l).
Proof.
  revert z. induction l as [|x l IH]; intros z; csimpl; [lia|].
  rewrite IH. lia.
Qed.

Lemma used_sum l D :
  calculateUsedDaysWithinWindow l D = sumZ (overlapDays (D - 179) D <$> l).
Proof.
  unfold calculateUsedDaysWithinWindow, subDaysPolyfill, addDays, parseISO.
  rewrite foldl_add_sumZ. rewrite Z.add_0_l. by rewrite <- Z.sub_opp_r.
Qed.

Lemma overlapDays_eq ws D t :
  overlapDays ws D t =
    Z.max 0 (Z.min (exitDate t) D - Z.max (entryDate t) ws + 1).
Proof.
  unfold overlapDays, isBefore, isAfter, differenceInCalendarDays, parseISO.
  destruct (Z.ltb_spec (entryDate t) ws), (Z.ltb_spec D (exitDate t));
    match goal with |- context [negb (?a <? ?b)] =>
      destruct (Z.ltb_spec a b) end; simpl; lia.
Qed.

Lemma overlapDays_nonneg ws D t : 0 <= overlapDays ws D t.
Proof. rewrite overlapDays_eq. lia. Qed.

Lemma used_nonneg l D : 0 <= calculateUsedDaysWithinWindow l D.
Proof.
  rewrite used_sum. induction l as [|t l IH]; csimpl; [done|].
  pose proof (overlapDays_nonneg (D - 179) D t). lia.
Qed.

Lemma count_interval lo hi (n : nat) a :
  Z.of_nat (length (filter (fun d => lo <= d <= hi) (seqZ a (Z.of_nat n)))) =
    Z.max 0 (Z.min hi (a + Z.of_nat n - 1) - Z.max lo a + 1).
Proof.
  revert a. induction n as [|n IH]; intros a.
  - rewrite seqZ_nil by done. simpl. lia.
  - rewrite seqZ_cons by lia.
    replace (Z.pred (Z.of_nat (S n))) with (Z.of_nat n) by lia.
    rewrite filter_cons. specialize (IH (Z.succ a)).
    case_decide; simpl length; lia.
Qed.

Lemma overlapDays_count t D :
  overlapDays (D - 179) D t = daysInWindow (onTrip t) D.
Proof.
  unfold daysInWindow, window. rewrite overlapDays_eq.
  change 180 with (Z.of_nat 180).
  rewrite (list_filter_iff (onTrip t) (fun d => entryDate t <= d <= exitDate t))
    by done.
  rewrite count_interval. lia.
Qed.

Lemma length_filter_or (P Q : Z -> Prop)
    `{forall x, Decision (P x)} `{forall x, Decision (Q x)} (l : list Z) :
  (forall x, P x -> Q x -> False) ->
  length (filter (fun x => P x \/ Q x) l) =
    (length (filter P l) + length (filter Q l))%nat.
Proof.
  intros Hdisj. induction l as [|x l IH]; [done|].
  rewrite !filter_cons.
  destruct (decide (P x)), (decide (Q x)); case_decide; simpl;
    try tauto; try lia.
  exfalso; eauto.
Qed.

Lemma length_filter_none (P : Z -> Prop) `{forall x, Decision (P x)} (l : list Z) :
  Forall (fun x => ~ P x) l -> length (filter P l) = 0%nat.
Proof.
  induction 1 as [|x l Hx Hl IH]; [done|]. by rewrite filter_cons_False.
Qed.

Lemma length_filter_mono (P Q : Z -> Prop)
    `{forall x, Decision (P x)} `{forall x, Decision (Q x)} (l : list Z) :
  (forall x, P x -> Q x) ->
  (length (filter P l) <= length (filter Q l))%nat.
Proof.
  intros Himp. induction l as [|x l IH]; [done|].
  rewrite !filter_cons.
  destruct (decide (P x)), (decide (Q x)); simpl; try lia.
  exfalso; eauto.
Qed.

Lemma daysInWindow_bounds (P : Z -> Prop) `{forall d, Decision (P d)} D :
  0 <= daysInWindow P D <= 180.
Proof.
  unfold daysInWindow. pose proof (length_filter P (window D)) as Hle.
  unfold window in *. rewrite length_seqZ in Hle. lia.
Qed.

Lemma daysInWindow_mono (P Q : Z -> Prop)
    `{forall d, Decision (P d)} `{forall d, Decision (Q d)} D :
  (forall d, P d -> Q d) -> daysInWindow P D <= daysInWindow Q D.
Proof.
  intros Himp. unfold daysInWindow.
  apply inj_le. by apply length_filter_mono.
Qed.

(** On a list that satisfies [chain], the usage is the number of days of
    the window on which the traveller is present. *)
Lemma used_chain_count lo l D :
  chain lo l -> calculateUsedDaysWithinWindow l D = daysInWindow (covers l) D.
Proof.
  rewrite used_sum. revert lo. induction l as [|t l IH]; intros lo Hc.
  - unfold daysInWindow.
    rewrite (list_filter_iff (covers []) (fun _ => False)) by apply covers_nil.
    simpl. by induction (window D).
  - destruct Hc as [Hlo Hc]. csimpl. rewrite (IH _ Hc), overlapDays_count.
    unfold daysInWindow.
    rewrite (list_filter_iff (covers (t :: l))
               (fun d => onTrip t d \/ covers l d))
      by (intros; apply covers_cons).
    rewrite length_filter_or; [lia|].
    intros d Ht Hl. apply covers_elem_of in Hl as (u & Hu & Hd).
    pose proof (chain_entries _ _ Hc) as Hent.
    rewrite Forall_forall in Hent. specialize (Hent u Hu).
    unfold onTrip in *. lia.
Qed.

(** ** The day scan of canStayForPeriod *)

Lemma scanDays_None c start i n :
  scanDays c start i n = None <->
  forall j, 0 <= j < Z.of_nat n ->
    calculateUsedDaysWithinWindow c (start + (i + j)) <= 90.
Proof.
  revert i. induction n as [|n IH]; intros i.
  - simpl. split; [intros _ j ?; lia|done].
  - cbn [scanDays]. unfold addDays, format, parseISO.
    destruct (Z.ltb_spec 90 (calculateUsedDaysWithinWindow c (start + i))) as [Hgt|Hle].
    + split; [done|]. intros Hall. specialize (Hall 0).
      rewrite Z.add_0_r in Hall. lia.
    + rewrite IH. split; intros Hall j Hj.
      * destruct (decide (j = 0)) as [->|].
        -- by rewrite Z.add_0_r.
        -- specialize (Hall (j - 1)).
           replace (i + 1 + (j - 1)) with (i + j) in Hall by lia.
           apply Hall. lia.
      * specialize (Hall (j + 1)).
        replace (i + (j + 1)) with (i + 1 + j) in Hall by lia.
        apply Hall. lia.
Qed.

Lemma scanDays_Some c start i n r :
  scanDays c start i n = Some r ->
  exists j, 0 <= j < Z.of_nat n /\
    (forall j', 0 <= j' < j ->
       calculateUsedDaysWithinWindow c (start + (i + j')) <= 90) /\
    90 < calculateUsedDaysWithinWindow c (start + (i + j)) /\
    r = {| isAllowed := false; violationDate := Some (start + (i + j));
           usedOnExit := calculateUsedDaysWithinWindow c (start + (i + j)) |}.
Proof.
  revert i. induction n as [|n IH]; intros i; [done|].
  cbn [scanDays]. unfold addDays, format, parseISO.
  destruct (Z.ltb_spec 90 (calculateUsedDaysWithinWindow c (start + i))) as [Hgt|Hle].
  - intros [= <-]. exists 0. rewrite Z.add_0_r.
    split; [lia|]. split; [intros; lia|]. by split.
  - intros Hs. apply IH in Hs as (j & Hj & Hbefore & Hgt & ->).
    exists (j + 1). replace (i + (j + 1)) with (i + 1 + j) by lia.
    split; [lia|]. split; [|by split]. intros j' Hj'.
    destruct (decide (j' = 0)) as [->|].
    + by rewrite Z.add_0_r.
    + specialize (Hbefore (j' - 1)).
      replace (i + 1 + (j' - 1)) with (i + j') in Hbefore by lia.
      apply Hbefore. lia.
Qed.

(** The result of [canStayForPeriod], by cases on the scan. *)
Lemma canStayForPeriod_cases trips E X :
  (canStayForPeriod trips E X =
     {| isAllowed := true; violationDate := None;
        usedOnExit :=
          calculateUsedDaysWithinWindow (combinedTrips trips E X) X |} /\
   forall d, E <= d <= X ->
     calculateUsedDaysWithinWindow (combinedTrips trips E X) d <= 90) \/
  (exists d, E <= d <= X /\
     90 < calculateUsedDaysWithinWindow (combinedTrips trips E X) d /\
     (forall d', E <= d' < d ->
        calculateUsedDaysWithinWindow (combinedTrips trips E X) d' <= 90) /\
     canStayForPeriod trips E X =
       {| isAllowed := false; violationDate := Some d;
          usedOnExit :=
            calculateUsedDaysWithinWindow (combinedTrips trips E X) d |}).
Proof.
  unfold canStayForPeriod, differenceInCalendarDays, parseISO.
  destruct (scanDays _ E 0 _) as [r|] eqn:Hscan.
  - right. apply scanDays_Some in Hscan as (j & Hj & Hbefore & Hgt & ->).
    exists (E + (0 + j)). split; [lia|]. split; [done|]. split; [|done].
    intros d' Hd'. specialize (Hbefore (d' - E)).
    replace (E + (0 + (d' - E))) with d' in Hbefore by lia.
    apply Hbefore. lia.
  - left. split; [done|]. intros d Hd.
    pose proof (proj1 (scanDays_None _ _ _ _) Hscan (d - E)) as Hle.
    replace (E + (0 + (d - E))) with d in Hle by lia.
    apply Hle. lia.
Qed.

Lemma combinedTrips_covers trips E X d :
  covers (combinedTrips trips E X) d <-> covers trips d \/ E <= d <= X.
Proof.
  unfold combinedTrips. rewrite normalizeTrips_covers, covers_app.
  rewrite covers_cons, covers_nil. unfold onTrip, tempTrip; simpl. tauto.
Qed.

Lemma combinedTrips_used trips E X D :
  calculateUsedDaysWithinWindow (combinedTrips trips E X) D =
    daysInWindow (covers (combinedTrips trips E X)) D.
Proof.
  destruct (normalizeTrips_chain (trips ++ [tempTrip E X])) as [lo Hc].
  by eapply used_chain_count.
Qed.

(** ** The search loop of getMaxSafeStayFromDate *)

Lemma maxStayLoop_spec trips E n i :
  let L := maxStayLoop trips E i n (i - 1) in
  i - 1 <= L <= i - 1 + Z.of_nat n /\
  (i <= L -> isAllowed (canStayForPeriod trips E (E + (L - 1))) = true) /\
  (L < i - 1 + Z.of_nat n ->
   isAllowed (canStayForPeriod trips E (E + L)) = false).
Proof.
  revert i. induction n as [|n IH]; intros i.
  - simpl. repeat split; lia.
  - cbn [maxStayLoop]. unfold addDays, format, parseISO.
    destruct (isAllowed (canStayForPeriod trips E (E + (i - 1)))) eqn:Hchk; simpl.
    + specialize (IH (i + 1)).
      replace (i + 1 - 1) with i in IH by lia.
      destruct IH as (Hb & Hok & Hfail). split; [lia|]. split.
      * intros HL.
        destruct (decide (maxStayLoop trips E (i + 1) n i = i)) as [->|Hne].
        -- done.
        -- apply Hok. lia.
      * intros HL. apply Hfail. lia.
    + split; [lia|]. split; [lia|done].
Qed.

(** ** The presence set *)

Lemma elem_of_addAll (s : gset Z) ds d : d ∈ addAll s ds <-> d ∈ s \/ d ∈ ds.
Proof.
  unfold addAll. revert s. induction ds as [|x ds IH]; intros s; simpl.
  - rewrite elem_of_nil. tauto.
  - rewrite IH, elem_of_union, elem_of_singleton, elem_of_cons. tauto.
Qed.

Lemma elem_of_tripDates t d : d ∈ tripDates t <-> onTrip t d.
Proof.
  unfold tripDates, differenceInCalendarDays, addDays, format, parseISO, onTrip.
  rewrite list_elem_of_fmap. setoid_rewrite elem_of_seqZ. split.
  - intros (i & -> & Hi). lia.
  - intros Hd. exists (d - entryDate t). lia.
Qed.

Lemma elem_of_expandTrips l d : d ∈ expandTrips l <-> covers l d.
Proof.
  unfold expandTrips.
  assert (forall s : gset Z,
    d ∈ foldl (fun dateSet t => addAll dateSet (tripDates t)) s l
    <-> d ∈ s \/ covers l d) as Hgen.
  { induction l as [|t l IH]; intros s; simpl.
    - rewrite covers_nil. tauto.
    - rewrite IH, elem_of_addAll, elem_of_tripDates, covers_cons. tauto. }
  rewrite Hgen, elem_of_empty. tauto.
Qed.

Lemma increasing_of_sorted x l :
  StronglySorted Z.le (x :: l) -> NoDup (x :: l) -> increasing x l.
Proof.
  revert x. induction l as [|y l IH]; intros x Hs Hnd; simpl; [done|].
  apply StronglySorted_inv in Hs as [Hs Hx].
  apply NoDup_cons in Hnd as [Hx' Hnd].
  apply Forall_cons in Hx as [Hxy _].
  split; [|by apply IH].
  assert (x <> y) by (intros ->; apply Hx'; left). lia.
Qed.

Lemma sortedDates_elem_of (s : gset Z) d : d ∈ sortedDates s <-> d ∈ s.
Proof.
  unfold sortedDates. by rewrite merge_sort_Permutation, elem_of_elements.
Qed.

Lemma sortedDates_increasing (s : gset Z) x rest :
  sortedDates s = x :: rest -> increasing x rest.
Proof.
  intros Hs. apply increasing_of_sorted; rewrite <- Hs; unfold sortedDates.
  - apply StronglySorted_merge_sort; apply _.
  - rewrite merge_sort_Permutation. apply NoDup_elements.
Qed.

(** ** Run-length encoding of the sorted dates *)

Section CodecProofs.

Variable uuid : nat -> string.

Lemma collapseLoop_spec acc tripStart tripPrev rest :
  tripStart <= tripPrev -> increasing tripPrev rest ->
  exists out,
    collapseLoop uuid acc tripStart tripPrev rest = acc ++ out /\
    chain tripStart out /\ Forall validTrip out /\
    forall d, covers out d <-> tripStart <= d <= tripPrev \/ d ∈ rest.
Proof.
  revert acc tripStart tripPrev.
  induction rest as [|curr rest IH]; intros acc tripStart tripPrev Hle Hinc.
  - eexists. split; [done|]. split; [simpl; lia|]. split.
    + by repeat constructor.
    + intros d. rewrite covers_cons, covers_nil, elem_of_nil.
      unfold onTrip; simpl. tauto.
  - destruct Hinc as [Hlt Hinc]. cbn [collapseLoop].
    unfold differenceInCalendarDays, parseISO.
    destruct (Z.eqb_spec (curr - tripPrev) 1) as [Heq|Hne].
    + destruct (IH acc tripStart curr) as (out & -> & Hc & Hv & Hcov);
        [lia|done|].
      exists out. split; [done|]. split; [done|]. split; [done|].
      intros d. rewrite Hcov, elem_of_cons.
      assert (tripStart <= d <= curr <-> tripStart <= d <= tripPrev \/ d = curr)
        by lia.
      tauto.
    + set (tr := {| trip_id := uuid (length acc);
                    entryDate := tripStart; exitDate := tripPrev |}).
      destruct (IH (acc ++ [tr]) curr curr) as (out & -> & Hc & Hv & Hcov);
        [lia|done|].
      exists (tr :: out). split; [by rewrite <- app_assoc|].
      split; [|split].
      * simpl. split; [lia|]. eapply chain_weaken; [|done]. lia.
      * constructor; [done|done].
      * intros d. rewrite covers_cons, Hcov, elem_of_cons.
        unfold onTrip; simpl.
        assert (curr <= d <= curr <-> d = curr) by lia. tauto.
Qed.

Lemma collapse_spec (s : gset Z) :
  (exists lo, chain lo (collapse uuid s)) /\
  Forall validTrip (collapse uuid s) /\
  forall d, covers (collapse uuid s) d <-> d ∈ s.
Proof.
  unfold collapse. destruct (sortedDates s) as [|x rest] eqn:Hs.
  - split; [by exists 0|]. split; [done|].
    intros d. rewrite <- sortedDates_elem_of, Hs, covers_nil, elem_of_nil. done.
  - destruct (collapseLoop_spec [] x x rest) as (out & -> & Hc & Hv & Hcov);
      [lia|by eapply sortedDates_increasing|].
    simpl. split; [by exists x|]. split; [done|].
    intros d. rewrite Hcov, <- sortedDates_elem_of, Hs, elem_of_cons.
    assert (x <= d <= x <-> d = x) by lia. tauto.
Qed.

End CodecProofs.

(** ** Uniqueness of the normalized form *)

Lemma chain_tail_after lo a l d :
  chain lo (a :: l) -> covers l d -> Z.max (entryDate a) (exitDate a + 2) <= d.
Proof.
  intros [_ Hc] Hcov. apply covers_elem_of in Hcov as (u & Hu & Hd).
  pose proof (chain_entries _ _ Hc) as Hent.
  rewrite Forall_forall in Hent. specialize (Hent u Hu).
  unfold onTrip in Hd. lia.
Qed.

Lemma chain_unique l1 l2 lo1 lo2 :
  chain lo1 l1 -> chain lo2 l2 -> Forall validTrip l1 -> Forall validTrip l2 ->
  (forall d, covers l1 d <-> covers l2 d) ->
  dates <$> l1 = dates <$> l2.
Proof.
  revert l2 lo1 lo2.
  induction l1 as [|a l1 IH]; intros [|b l2] lo1 lo2 Hc1 Hc2 Hv1 Hv2 Hcov.
  - done.
  - exfalso. apply Forall_cons in Hv2 as [Hb _].
    apply (covers_nil (entryDate b)), Hcov, covers_cons. left.
    unfold onTrip, validTrip in *. lia.
  - exfalso. apply Forall_cons in Hv1 as [Ha _].
    apply (covers_nil (entryDate a)), Hcov, covers_cons. left.
    unfold onTrip, validTrip in *. lia.
  - apply Forall_cons in Hv1 as [Ha Hv1]. apply Forall_cons in Hv2 as [Hb Hv2].
    pose proof (fun d => chain_tail_after _ _ _ d Hc1) as Ht1.
    pose proof (fun d => chain_tail_after _ _ _ d Hc2) as Ht2.
    assert (forall d, covers (a :: l1) d <-> onTrip b d \/ covers l2 d) as Hcov'
      by (intros d; by rewrite Hcov, covers_cons).
    setoid_rewrite covers_cons in Hcov'.
    unfold validTrip, onTrip in *.
    assert (entryDate a = entryDate b) as Hentry.
    { pose proof (proj1 (Hcov' (entryDate a))) as H1.
      pose proof (proj2 (Hcov' (entryDate b))) as H2.
      destruct H1 as [?|H1]; [left; lia| |apply Ht2 in H1];
        (destruct H2 as [?|H2]; [left; lia| |apply Ht1 in H2]); lia. }
    assert (exitDate a = exitDate b) as Hexit.
    { destruct (Z.lt_trichotomy (exitDate a) (exitDate b)) as [Hlt|[?|Hlt]];
        [|done|].
      - destruct (proj2 (Hcov' (exitDate a + 1))) as [?|H2];
          [left; lia|lia|apply Ht1 in H2; lia].
      - destruct (proj1 (Hcov' (exitDate b + 1))) as [?|H1];
          [left; lia|lia|apply Ht2 in H1; lia]. }
    csimpl. f_equal; [unfold dates; congruence|].
    destruct Hc1 as [_ Hc1]. destruct Hc2 as [_ Hc2].
    eapply IH; [done..|]. intros d. split; intros Hd.
    + pose proof (Ht1 _ Hd).
      destruct (proj1 (Hcov' d)) as [?|?]; [by right|lia|done].
    + pose proof (Ht2 _ Hd).
      destruct (proj2 (Hcov' d)) as [?|?]; [by right|lia|done].
Qed.

(** ** The scenarios of the specification, on day numbers *)

(** A trip of ten days, measured on its last day. *)
Example scenario_one_trip :
  calculateUsedDaysWithinWindow [interval 1 10] 10 = 10.
Proof. reflexivity. Qed.

(** Back-to-back trips are merged. *)
Example scenario_back_to_back :
  normalizeTrips [interval 61 65; interval 66 70] = [interval 61 70] /\
  calculateUsedDaysWithinWindow
    (normalizeTrips [interval 61 65; interval 66 70]) 70 = 10.
Proof. split; reflexivity. Qed.

(** Overlapping trips are merged, with the later exit date. *)
Example scenario_overlapping :
  normalizeTrips [interval 91 100; interval 95 105] = [interval 91 105].
Proof. reflexivity. Qed.

(** With no other trip, day 91 of a stay is the first violation. *)
Example scenario_day_91 :
  canStayForPeriod [] 1000 1091 =
    {| isAllowed := false; violationDate := Some 1090; usedOnExit := 91 |}.
Proof. reflexivity. Qed.

Example scenario_max_stay_empty :
  getMaxSafeStayFromDate [] 1000 = {| maxDays := 90; untilDate := 1089 |}.
Proof. reflexivity. Qed.

(** Toggling day 10, then day 11, then day 10 again. *)
Example scenario_toggle :
  let p0 := mkProfile "default" "Me" [] in
  let p1 := toggleProfile (fun _ => "id") p0 10 in
  let p2 := toggleProfile (fun _ => "id") p1 11 in
  let p3 := toggleProfile (fun _ => "id") p2 10 in
  dates <$> trips p2 = [(10, 11)] /\ dates <$> trips p3 = [(11, 11)].
Proof. split; vm_compute; reflexivity. Qed.

(** Either order of the two clicks of a range gives the same trips. *)
Example scenario_range :
  let p0 := mkProfile "default" "Me" [interval 10 10] in
  trips (addRangeProfile (fun _ => "id") p0 20 15) =
    [mkTrip "id" 10 10; mkTrip "id" 15 20] /\
  trips (addRangeProfile (fun _ => "id") p0 15 20) =
    [mkTrip "id" 10 10; mkTrip "id" 15 20].
Proof. split; vm_compute; reflexivity. Qed.

(** ** The window of the second implementation *)

(** For selected days at midnight and a reference [t] milliseconds into day
    [D], the days counted are [D - 179 .. D] when [t] is not 0, and
    [D - 180 .. D] at midnight sharp. *)
Lemma calculateDaysInWindow_test (d D t : Z) :
  0 <= t < AppPage.msPerDay ->
  let date := d * AppPage.msPerDay in
  let referenceDate := D * AppPage.msPerDay + t in
  let windowStart := referenceDate - 180 * AppPage.msPerDay in
  (windowStart <=? date) && (date <=? referenceDate) = true <->
  (if decide (t = 0) then D - 180 <= d <= D else D - 179 <= d <= D).
Proof.
  unfold AppPage.msPerDay. intros Ht. cbv zeta.
  rewrite andb_true_iff, !Z.leb_le. case_decide; lia.
Qed.

Example calculateDaysInWindow_midday :
  AppPage.calculateDaysInWindow
    [20 * AppPage.msPerDay; 21 * AppPage.msPerDay; 200 * AppPage.msPerDay]
    (200 * AppPage.msPerDay + 43200000) = 2.
Proof. reflexivity. Qed.

(** * The program in a time zone *)

Section ZonedProofs.

Variable dayStart : Z -> Z.

Lemma zoned_isBefore_iff (x y : Zoned.Date) :
  Zoned.isBefore x y = true <->
  fst x < fst y \/ (fst x = fst y /\ snd x < snd y).
Proof.
  unfold Zoned.isBefore.
  rewrite orb_true_iff, andb_true_iff, !Z.ltb_lt, Z.eqb_eq. done.
Qed.

Lemma zoned_isBefore_false_iff (x y : Zoned.Date) :
  Zoned.isBefore x y = false <->
  fst y < fst x \/ (fst x = fst y /\ snd y <= snd x).
Proof.
  rewrite <- not_true_iff_false, zoned_isBefore_iff. lia.
Qed.

Lemma zoned_parseISO_day d : fst (Zoned.parseISO dayStart d) = d.
Proof. done. Qed.

Lemma zoned_parseISO_time d :
  snd (Zoned.parseISO dayStart d) = Z.max 0 (dayStart d).
Proof.
  unfold Zoned.parseISO, Zoned.resolve. cbn [snd].
  destruct (Z.ltb_spec 0 (dayStart d)); lia.
Qed.

(** Moving a date by days that are not 0 gives a time of the new day that
    is not before the first time of that day. *)
Lemma zoned_addDays_parseISO d n :
  n <> 0 ->
  fst (Zoned.addDays dayStart (Zoned.parseISO dayStart d) n) = d + n /\
  snd (Zoned.parseISO dayStart (d + n)) <=
    snd (Zoned.addDays dayStart (Zoned.parseISO dayStart d) n).
Proof.
  intros Hn. unfold Zoned.addDays.
  destruct (Z.eqb_spec n 0); [done|]. split; [done|].
  rewrite zoned_parseISO_time. unfold Zoned.resolve. cbn [fst snd].
  pose proof (zoned_parseISO_time d) as Ht. cbn [snd] in Ht.
  unfold Zoned.parseISO, Zoned.resolve in Ht |- *. cbn [fst snd] in *.
  destruct (Z.ltb_spec 0 (dayStart d));
    match goal with |- context [?a <? ?b] => destruct (Z.ltb_spec a b) end;
    lia.
Qed.

(** [normalizeTrips] does not depend on the time zone. *)
Lemma zoned_normalizeLoop acc c rest :
  Zoned.normalizeLoop dayStart acc c rest = normalizeLoop acc c rest.
Proof.
  revert acc c. induction rest as [|n rest IH]; intros acc c; [done|].
  cbn [Zoned.normalizeLoop normalizeLoop].
  destruct (zoned_addDays_parseISO (exitDate c) 1 ltac:(lia)) as [Hday Htime].
  set (adjacentDate := Zoned.addDays dayStart
                         (Zoned.parseISO dayStart (exitDate c)) 1) in *.
  assert (Zoned.isBefore (Zoned.parseISO dayStart (entryDate n)) adjacentDate
            || Zoned.sameInstant (Zoned.parseISO dayStart (entryDate n))
                 adjacentDate
          = DateFns.isBefore (DateFns.parseISO (entryDate n))
              (DateFns.addDays (DateFns.parseISO (exitDate c)) 1)
            || (DateFns.parseISO (entryDate n) =?
                DateFns.addDays (DateFns.parseISO (exitDate c)) 1)) as ->.
  { unfold DateFns.isBefore, DateFns.addDays, DateFns.parseISO.
    apply eq_true_iff_eq.
    rewrite !orb_true_iff, zoned_isBefore_iff, Z.ltb_lt, Z.eqb_eq.
    unfold Zoned.sameInstant. rewrite andb_true_iff, !Z.eqb_eq.
    rewrite zoned_parseISO_day, Hday.
    destruct (decide (entryDate n = exitDate c + 1)) as [Heq|]; [|lia].
    rewrite Heq in *. lia. }
  assert (Zoned.isAfter (Zoned.parseISO dayStart (exitDate n))
            (Zoned.parseISO dayStart (exitDate c))
          = DateFns.isAfter (DateFns.parseISO (exitDate n))
              (DateFns.parseISO (exitDate c))) as ->.
  { unfold DateFns.isAfter, DateFns.parseISO, Zoned.isAfter.
    apply eq_true_iff_eq. rewrite zoned_isBefore_iff, Z.ltb_lt.
    rewrite !zoned_parseISO_day.
    destruct (decide (exitDate c = exitDate n)) as [Heq|]; [|lia].
    rewrite Heq. lia. }
  destruct (_ || _); apply IH.
Qed.

Lemma zoned_normalizeTrips l : Zoned.normalizeTrips dayStart l = normalizeTrips l.
Proof.
  unfold Zoned.normalizeTrips, normalizeTrips.
  destruct l; [done|]. destruct (sortByEntry _); [done|].
  apply zoned_normalizeLoop.
Qed.

Lemma zoned_lateWindowStart_midnight D :
  dayStart D <= 0 -> Zoned.lateWindowStart dayStart D = false.
Proof.
  intros Hmid. unfold Zoned.lateWindowStart. apply Z.ltb_ge.
  unfold Zoned.subDaysPolyfill, Zoned.addDays. simpl (- 179 =? 0).
  cbn iota. pose proof (zoned_parseISO_time D) as Ht.
  rewrite Z.max_l in Ht by lia. unfold Zoned.resolve at 1. cbn [fst snd].
  rewrite Ht. unfold Zoned.parseISO, Zoned.resolve. cbn [fst snd].
  replace (D + - 179) with (D - 179) by lia. done.
Qed.

(** What a trip adds to the usage: the days it shares with the window,
    less the first day of the window when the trip ends there and the
    window starts late. *)
Lemma zoned_overlapDays D t :
  Zoned.overlapDays dayStart
    (Zoned.subDaysPolyfill dayStart (Zoned.parseISO dayStart D) 179)
    (Zoned.parseISO dayStart D) t =
  overlapDays (D - 179) D t -
  (if Zoned.lateWindowStart dayStart D && bool_decide (endsOn (D - 179) t)
   then 1 else 0).
Proof.
  rewrite overlapDays_eq. unfold Zoned.lateWindowStart, Zoned.overlapDays,
    Zoned.isAfter, Zoned.differenceInCalendarDays, endsOn.
  unfold Zoned.subDaysPolyfill. change (Z.opp 179) with (-179).
  destruct (zoned_addDays_parseISO D (-179) ltac:(lia)) as [Hwd Hwt].
  replace (D + -179) with (D - 179) in * by lia.
  set (WS := Zoned.addDays dayStart (Zoned.parseISO dayStart D) (-179)) in *.
  set (R := Zoned.parseISO dayStart D).
  set (A := Zoned.parseISO dayStart (entryDate t)).
  set (B := Zoned.parseISO dayStart (exitDate t)).
  set (PW := Zoned.parseISO dayStart (D - 179)) in *.
  assert (fst R = D) as HR by done.
  assert (fst A = entryDate t) as HA by done.
  assert (fst B = exitDate t) as HB by done.
  assert (entryDate t = D - 179 -> snd A = snd PW) as HAW
    by (intros Heq; subst A PW; by rewrite Heq).
  assert (exitDate t = D - 179 -> snd B = snd PW) as HBW
    by (intros Heq; subst B PW; by rewrite Heq).
  assert (exitDate t = D -> snd B = snd R) as HBR
    by (intros Heq; subst B R; by rewrite Heq).
  assert (entryDate t = D -> snd A = snd R) as HAR
    by (intros Heq; subst A R; by rewrite Heq).
  assert (entryDate t = exitDate t -> snd A = snd B) as HAB
    by (intros Heq; subst A B; by rewrite Heq).
  clearbody WS R A B PW.
  destruct (Zoned.isBefore A WS) eqn:H1;
    [apply zoned_isBefore_iff in H1|apply zoned_isBefore_false_iff in H1];
    (destruct (Zoned.isBefore R B) eqn:H2;
     [apply zoned_isBefore_iff in H2|apply zoned_isBefore_false_iff in H2]);
    cbv iota;
    match goal with |- context [negb (Zoned.isBefore ?x ?y)] =>
      destruct (Zoned.isBefore x y) eqn:H3;
      [apply zoned_isBefore_iff in H3|apply zoned_isBefore_false_iff in H3]
    end; cbn [negb];
    (destruct (Z.ltb_spec (snd PW) (snd WS)); cbn [andb];
     [case_bool_decide|]); lia.
Qed.

Lemma zoned_used l D :
  Zoned.calculateUsedDaysWithinWindow dayStart l D =
  calculateUsedDaysWithinWindow l D -
  (if Zoned.lateWindowStart dayStart D
   then Z.of_nat (length (filter (endsOn (D - 179)) l)) else 0).
Proof.
  rewrite used_sum. unfold Zoned.calculateUsedDaysWithinWindow.
  rewrite (foldl_add_sumZ
    (Zoned.overlapDays dayStart
       (Zoned.subDaysPolyfill dayStart (Zoned.parseISO dayStart D) 179)
       (Zoned.parseISO dayStart D))).
  rewrite Z.add_0_l. induction l as [|t l IH]; csimpl.
  - by destruct (Zoned.lateWindowStart dayStart D).
  - rewrite IH, zoned_overlapDays, filter_cons.
    destruct (Zoned.lateWindowStart dayStart D); cbn [andb];
      [|lia]. case_bool_decide; case_decide; try done; simpl length; lia.
Qed.

Lemma zoned_isInWindow D d :
  Zoned.isInWindow dayStart D d = true <->
  D - 179 <= d <= D /\
  ~ (d = D - 179 /\ Zoned.lateWindowStart dayStart D = true).
Proof.
  unfold Zoned.isInWindow, Zoned.isWithinInterval, Zoned.isAfter,
    Zoned.lateWindowStart, Zoned.subDaysPolyfill.
  change (Z.opp 179) with (-179).
  destruct (zoned_addDays_parseISO D (-179) ltac:(lia)) as [Hwd Hwt].
  replace (D + -179) with (D - 179) in * by lia.
  set (WS := Zoned.addDays dayStart (Zoned.parseISO dayStart D) (-179)) in *.
  change (Zoned.resolve dayStart d 0) with (Zoned.parseISO dayStart d).
  set (R := Zoned.parseISO dayStart D).
  set (A := Zoned.parseISO dayStart d).
  set (PW := Zoned.parseISO dayStart (D - 179)) in *.
  assert (fst R = D) as HR by done.
  assert (fst A = d) as HA by done.
  assert (d = D - 179 -> snd A = snd PW) as HAW
    by (intros Heq; subst A PW; by rewrite Heq).
  assert (d = D -> snd A = snd R) as HAR
    by (intros Heq; subst A R; by rewrite Heq).
  clearbody WS R A PW.
  rewrite andb_true_iff, !negb_true_iff, !zoned_isBefore_false_iff, Z.ltb_lt.
  lia.
Qed.

Lemma zoned_addDays_day (x : Zoned.Date) n :
  fst (Zoned.addDays dayStart x n) = fst x + n.
Proof.
  unfold Zoned.addDays. destruct (Z.eqb_spec n 0) as [->|]; [lia|done].
Qed.

Lemma zoned_used_midnight l D :
  dayStart D <= 0 ->
  Zoned.calculateUsedDaysWithinWindow dayStart l D =
    calculateUsedDaysWithinWindow l D.
Proof.
  intros Hmid. rewrite zoned_used, zoned_lateWindowStart_midnight by done. lia.
Qed.

(** ** The lost day on a list without common or adjacent trips *)

Lemma chain_covers_ge lo l d : chain lo l -> covers l d -> lo <= d.
Proof.
  intros Hc (u & Hu & Hd)%covers_elem_of.
  pose proof (chain_entries _ _ Hc) as Hent.
  rewrite Forall_forall in Hent. specialize (Hent u Hu).
  unfold onTrip in Hd. lia.
Qed.

Lemma chain_edge_count lo l W :
  chain lo l ->
  length (filter (endsOn W) l) =
    if decide (covers l W /\ ~ covers l (W + 1)) then 1%nat else 0%nat.
Proof.
  revert lo. induction l as [|t l IH]; intros lo Hc.
  - rewrite decide_False; [done|]. by intros [?%covers_nil _].
  - destruct Hc as [Hlo Hc]. rewrite filter_cons.
    pose proof (chain_covers_ge _ _ W Hc) as HW.
    pose proof (chain_covers_ge _ _ (W + 1) Hc) as HW1.
    pose proof (chain_entries _ _ Hc) as Hent.
    destruct (decide (endsOn W t)) as [[He Hx]|Hne];
      cbn [length]; rewrite (IH _ Hc).
    + assert (~ covers l W) by (intros ?%HW; lia).
      assert (~ covers l (W + 1)) by (intros ?%HW1; lia).
      rewrite (decide_False (P := covers l W /\ _)) by tauto.
      rewrite decide_True; [done|].
      rewrite !covers_cons. unfold onTrip. split; [left; lia|].
      intros [?|?]; [lia|done].
    + unfold endsOn in Hne.
      destruct (decide (covers l W /\ ~ covers l (W + 1))) as [[H1 H2]|Hn].
      * apply HW in H1 as Hge. rewrite decide_True; [done|].
        rewrite !covers_cons. unfold onTrip. split; [by right|].
        intros [?|?]; [lia|done].
      * rewrite decide_False; [done|]. rewrite !covers_cons. unfold onTrip.
        intros [[Ht|Hl] Hno].
        -- apply Hno. left. lia.
        -- apply Hn. split; [done|]. intros Hl1. apply Hno. by right.
Qed.

Lemma daysInWindow_ext (P Q : Z -> Prop)
    `{forall d, Decision (P d)} `{forall d, Decision (Q d)} D :
  (forall d, P d <-> Q d) -> daysInWindow P D = daysInWindow Q D.
Proof.
  intros Hiff. unfold daysInWindow. f_equal. f_equal.
  by apply list_filter_iff.
Qed.

Lemma windowEdgeLost_ext (P Q : Z -> Prop)
    `{forall d, Decision (P d)} `{forall d, Decision (Q d)} D :
  (forall d, P d <-> Q d) ->
  windowEdgeLost dayStart P D = windowEdgeLost dayStart Q D.
Proof.
  intros Hiff. unfold windowEdgeLost.
  rewrite (bool_decide_ext (P (D - 179) /\ ~ P (D - 178))
             (Q (D - 179) /\ ~ Q (D - 178))); [done|].
  rewrite !Hiff. done.
Qed.

Lemma windowEdgeLost_bounds (P : Z -> Prop) `{forall d, Decision (P d)} D :
  0 <= windowEdgeLost dayStart P D <= 1.
Proof. unfold windowEdgeLost. destruct (_ && _); lia. Qed.

Lemma windowEdgeLost_midnight (P : Z -> Prop) `{forall d, Decision (P d)} D :
  dayStart D <= 0 -> windowEdgeLost dayStart P D = 0.
Proof.
  intros Hmid. unfold windowEdgeLost.
  by rewrite zoned_lateWindowStart_midnight.
Qed.

(** On a list that satisfies [chain], the usage is the number of days of
    the window on which the traveller is present, less the lost day. *)
Lemma zoned_used_chain lo l D :
  chain lo l ->
  Zoned.calculateUsedDaysWithinWindow dayStart l D =
    daysInWindow (covers l) D - windowEdgeLost dayStart (covers l) D.
Proof.
  intros Hc. rewrite zoned_used, (used_chain_count _ _ _ Hc).
  rewrite (chain_edge_count _ _ (D - 179) Hc). unfold windowEdgeLost.
  replace (D - 179 + 1) with (D - 178) by lia.
  destruct (Zoned.lateWindowStart dayStart D); cbn [andb]; [|done].
  case_decide; [by rewrite bool_decide_eq_true_2|
                by rewrite bool_decide_eq_false_2].
Qed.

(** ** The day scan of canStayForPeriod *)

Lemma zoned_scanDays_None c start i n :
  Zoned.scanDays dayStart c start i n = None <->
  forall j, 0 <= j < Z.of_nat n ->
    Zoned.calculateUsedDaysWithinWindow dayStart c (fst start + (i + j)) <= 90.
Proof.
  revert i. induction n as [|n IH]; intros i.
  - simpl. split; [intros _ j ?; lia|done].
  - cbn [Zoned.scanDays]. unfold Zoned.format. rewrite zoned_addDays_day.
    destruct (Z.ltb_spec 90
      (Zoned.calculateUsedDaysWithinWindow dayStart c (fst start + i)))
      as [Hgt|Hle].
    + split; [done|]. intros Hall. specialize (Hall 0).
      rewrite Z.add_0_r in Hall. lia.
    + rewrite IH. split; intros Hall j Hj.
      * destruct (decide (j = 0)) as [->|].
        -- by rewrite Z.add_0_r.
        -- specialize (Hall (j - 1)).
           replace (i + 1 + (j - 1)) with (i + j) in Hall by lia.
           apply Hall. lia.
      * specialize (Hall (j + 1)).
        replace (i + (j + 1)) with (i + 1 + j) in Hall by lia.
        apply Hall. lia.
Qed.

Lemma zoned_scanDays_Some c start i n r :
  Zoned.scanDays dayStart c start i n = Some r ->
  exists j, 0 <= j < Z.of_nat n /\
    (forall j', 0 <= j' < j ->
       Zoned.calculateUsedDaysWithinWindow dayStart c (fst start + (i + j'))
         <= 90) /\
    90 < Zoned.calculateUsedDaysWithinWindow dayStart c (fst start + (i + j)) /\
    r = {| isAllowed := false; violationDate := Some (fst start + (i + j));
           usedOnExit :=
             Zoned.calculateUsedDaysWithinWindow dayStart c
               (fst start + (i + j)) |}.
Proof.
  revert i. induction n as [|n IH]; intros i; [done|].
  cbn [Zoned.scanDays]. unfold Zoned.format. rewrite zoned_addDays_day.
  destruct (Z.ltb_spec 90
    (Zoned.calculateUsedDaysWithinWindow dayStart c (fst start + i)))
    as [Hgt|Hle].
  - intros [= <-]. exists 0. rewrite Z.add_0_r.
    split; [lia|]. split; [intros; lia|]. by split.
  - intros Hs. apply IH in Hs as (j & Hj & Hbefore & Hgt & ->).
    exists (j + 1). replace (i + (j + 1)) with (i + 1 + j) by lia.
    split; [lia|]. split; [|by split]. intros j' Hj'.
    destruct (decide (j' = 0)) as [->|].
    + by rewrite Z.add_0_r.
    + specialize (Hbefore (j' - 1)).
      replace (i + 1 + (j' - 1)) with (i + j') in Hbefore by lia.
      apply Hbefore. lia.
Qed.

(** The result of [canStayForPeriod], by cases on the scan. *)
Lemma zoned_canStayForPeriod_cases trips E X :
  let used :=
    Zoned.calculateUsedDaysWithinWindow dayStart (combinedTrips trips E X) in
  (Zoned.canStayForPeriod dayStart trips E X =
     {| isAllowed := true; violationDate := None; usedOnExit := used X |} /\
   forall d, E <= d <= X -> used d <= 90) \/
  (exists d, E <= d <= X /\ 90 < used d /\
     (forall d', E <= d' < d -> used d' <= 90) /\
     Zoned.canStayForPeriod dayStart trips E X =
       {| isAllowed := false; violationDate := Some d;
          usedOnExit := used d |}).
Proof.
  intros used. subst used.
  unfold Zoned.canStayForPeriod, Zoned.differenceInCalendarDays.
  rewrite zoned_normalizeTrips, !zoned_parseISO_day.
  fold (combinedTrips trips E X).
  destruct (Zoned.scanDays _ _ _ 0 _) as [r|] eqn:Hscan.
  - right. apply zoned_scanDays_Some in Hscan as (j & Hj & Hbefore & Hgt & ->).
    rewrite zoned_parseISO_day in *.
    exists (E + (0 + j)). split; [lia|]. split; [done|]. split; [|done].
    intros d' Hd'. specialize (Hbefore (d' - E)).
    replace (E + (0 + (d' - E))) with d' in Hbefore by lia.
    apply Hbefore. lia.
  - left. split; [done|]. intros d Hd.
    pose proof (proj1 (zoned_scanDays_None _ _ _ _) Hscan (d - E)) as Hle.
    rewrite zoned_parseISO_day in Hle.
    replace (E + (0 + (d - E))) with d in Hle by lia.
    apply Hle. lia.
Qed.

Lemma zoned_scanDays_midnight c E i n :
  (forall d, dayStart d <= 0) ->
  Zoned.scanDays dayStart c (Zoned.parseISO dayStart E) i n =
    scanDays c E i n.
Proof.
  intros Hmid. revert i. induction n as [|n IH]; intros i; [done|].
  cbn [Zoned.scanDays scanDays].
  unfold Zoned.format, format, addDays, parseISO.
  rewrite zoned_addDays_day, zoned_parseISO_day.
  rewrite zoned_used_midnight by done. by rewrite IH.
Qed.

(** In a zone whose days all start at 00:00 the program is the program on
    day numbers. *)
Lemma zoned_canStayForPeriod_midnight trips E X :
  (forall d, dayStart d <= 0) ->
  Zoned.canStayForPeriod dayStart trips E X = canStayForPeriod trips E X.
Proof.
  intros Hmid. unfold Zoned.canStayForPeriod, canStayForPeriod, combinedTrips.
  rewrite zoned_normalizeTrips, zoned_scanDays_midnight by done.
  unfold Zoned.differenceInCalendarDays, differenceInCalendarDays, parseISO.
  rewrite !zoned_parseISO_day, zoned_used_midnight by done. done.
Qed.

End ZonedProofs.

(** * The claims *)

(** On day numbers, that is in a zone whose days all start at 00:00, the
    usage is computed over the closed window [D - 179 .. D], which has
    exactly 180 days: it is the sum, over the trips, of the number of days
    of the window that lie on the trip, and a trip that has no day in the
    window adds 0. *)
Lemma usedDays_is_window_sum (trips : list Trip) (D : Z) :
  (length (window D) = 180%nat /\
   forall d, d ∈ window D <-> D - 179 <= d <= D) /\
  calculateUsedDaysWithinWindow trips D =
    sumZ ((fun t => daysInWindow (onTrip t) D) <$> trips) /\
  forall t, (forall d, onTrip t d -> d ∉ window D) ->
    daysInWindow (onTrip t) D = 0 /\ overlapDays (D - 179) D t = 0.
Proof.
  split; [|split].
  - unfold window. rewrite length_seqZ. split; [done|].
    intros d. rewrite elem_of_seqZ. lia.
  - rewrite used_sum. f_equal. apply list_fmap_ext.
    intros _ t _. apply overlapDays_count.
  - intros t Hdisj. rewrite overlapDays_count.
    assert (daysInWindow (onTrip t) D = 0) as ->; [|done].
    unfold daysInWindow. rewrite length_filter_none; [done|].
    apply Forall_forall. intros d Hd Ht. by apply (Hdisj d).
Qed.

(** C1. The usage is not always the sum, over the trips, of the days of
    the window [D - 179 .. D] that lie on the trip.  In every zone it is
    that sum less the number of trips that end on the first day of the
    window when the window starts late.  In Africa/Cairo the reference
    date 26 April 2024 (day 19839) starts at 01:00, and so does its window
    on 30 October 2023 (day 19660): the trip of that one day is in the
    window and adds 0.  In [src/app/page.tsx], with the reference at 00:00
    sharp, [calculateDaysInWindow] counts a date selected 180 days before,
    which is not in the window. *)
Theorem usedDays_window_edge :
  (forall (dayStart : Z -> Z) (trips : list Trip) (D : Z),
     Zoned.calculateUsedDaysWithinWindow dayStart trips D =
       sumZ ((fun t => daysInWindow (onTrip t) D) <$> trips) -
       (if Zoned.lateWindowStart dayStart D
        then Z.of_nat (length (filter (endsOn (D - 179)) trips)) else 0)) /\
  (Zoned.parseISO Zoned.cairo 19839 = (19839, 3600000) /\
   Zoned.subDaysPolyfill Zoned.cairo (Zoned.parseISO Zoned.cairo 19839) 179 =
     (19660, 3600000) /\
   Zoned.parseISO Zoned.cairo 19660 = (19660, 0)) /\
  (Zoned.calculateUsedDaysWithinWindow Zoned.cairo
     [interval 19660 19660] 19839 = 0 /\
   19660 ∈ window 19839 /\
   sumZ ((fun t => daysInWindow (onTrip t) 19839) <$> [interval 19660 19660])
     = 1) /\
  (AppPage.calculateDaysInWindow
     [19659 * AppPage.msPerDay] (19839 * AppPage.msPerDay) = 1 /\
   19659 ∉ window 19839).
Proof.
  split; [|split; [|split]].
  - intros dayStart trips D. rewrite zoned_used. f_equal.
    apply (usedDays_is_window_sum trips D).
  - done.
  - split; [reflexivity|]. split; [|reflexivity].
    unfold window. apply elem_of_seqZ. lia.
  - split; [reflexivity|]. unfold window. rewrite elem_of_seqZ. lia.
Qed.

(** C2. For entry [E] and exit [X] with [E <= X], in every zone,
    [canStayForPeriod] normalizes the existing trips together with the
    trip [E .. X]: the combined list has no two trips with a common day or
    back to back, [normalizeTrips] leaves it as it is, and it covers the
    union of their days; its usage counts each day of presence of the
    window once, less the day lost at the edge of a window that starts
    late.  The days from [E] to [X] are scanned in ascending order: the
    first day whose usage exceeds 90 is the violation day of a result that
    is not allowed; if there is no such day the result is allowed, has no
    violation day, and its [usedOnExit] is the usage of the combined list
    at [X], which is at most 90. *)
Theorem canStayForPeriod_scan (dayStart : Z -> Z) (trips : list Trip)
    (E X : Z) :
  E <= X ->
  let combined := Zoned.normalizeTrips dayStart (trips ++ [tempTrip E X]) in
  let used := Zoned.calculateUsedDaysWithinWindow dayStart combined in
  (StronglySorted separated combined /\
   Zoned.normalizeTrips dayStart combined = combined /\
   forall d, covers combined d <-> covers trips d \/ E <= d <= X) /\
  (forall D,
     used D =
       daysInWindow (fun d => covers trips d \/ E <= d <= X) D -
       windowEdgeLost dayStart (fun d => covers trips d \/ E <= d <= X) D) /\
  (forall d, E <= d <= X -> 90 < used d ->
     (forall d', E <= d' < d -> used d' <= 90) ->
     Zoned.canStayForPeriod dayStart trips E X =
       {| isAllowed := false; violationDate := Some d; usedOnExit := used d |}) /\
  ((forall d, E <= d <= X -> used d <= 90) ->
     Zoned.canStayForPeriod dayStart trips E X =
       {| isAllowed := true; violationDate := None; usedOnExit := used X |} /\
     used X <= 90).
Proof.
  intros HEX combined used. subst combined used.
  rewrite !zoned_normalizeTrips.
  change (normalizeTrips (trips ++ [tempTrip E X]))
    with (combinedTrips trips E X).
  destruct (normalizeTrips_chain (trips ++ [tempTrip E X])) as [lo Hc].
  fold (combinedTrips trips E X) in Hc.
  split; [|split; [|split]].
  - split; [by eapply chain_separated|]. split.
    + by eapply normalizeTrips_chain_id.
    + apply combinedTrips_covers.
  - intros D. rewrite (zoned_used_chain dayStart _ _ D Hc).
    f_equal.
    + apply daysInWindow_ext. intros d. apply combinedTrips_covers.
    + apply windowEdgeLost_ext. intros d. apply combinedTrips_covers.
  - intros d Hd Hgt Hfirst.
    destruct (zoned_canStayForPeriod_cases dayStart trips E X)
      as [[_ Hall]|(d0 & Hd0 & Hgt0 & Hfirst0 & ->)].
    + specialize (Hall d Hd). lia.
    + assert (d0 = d) as ->; [|done].
      destruct (Z.lt_trichotomy d0 d) as [Hlt|[?|Hlt]]; [|done|].
      * specialize (Hfirst d0). lia.
      * specialize (Hfirst0 d). lia.
  - intros Hall.
    destruct (zoned_canStayForPeriod_cases dayStart trips E X)
      as [[-> _]|(d0 & Hd0 & Hgt0 & _ & _)].
    + split; [done|]. apply Hall. lia.
    + specialize (Hall d0 Hd0). lia.
Qed.

Lemma canStayForPeriod_scan_witness :
  Zoned.canStayForPeriod Zoned.cairo [interval 19660 19749] 19730 19749 =
    {| isAllowed := true; violationDate := None; usedOnExit := 90 |} /\
  Zoned.canStayForPeriod Zoned.cairo [interval 19660 19709] 19760 19805 =
    {| isAllowed := false; violationDate := Some 19800; usedOnExit := 91 |}.
Proof.
  split.
  - assert (19730 <= 19749) as Hle by lia.
    destruct (canStayForPeriod_scan Zoned.cairo [interval 19660 19749]
                19730 19749 Hle) as (_ & _ & _ & Hok).
    apply Hok. intros d Hd.
    assert (d ∈ seqZ 19730 20) as Hin by (apply elem_of_seqZ; lia).
    clear Hd. revert d Hin. apply Forall_forall.
    apply (bool_decide_unpack _). vm_compute. exact I.
  - assert (19760 <= 19805) as Hle by lia.
    destruct (canStayForPeriod_scan Zoned.cairo [interval 19660 19709]
                19760 19805 Hle) as (_ & _ & Hbad & _).
    apply (Hbad 19800); [lia|reflexivity|]. intros d Hd.
    assert (d ∈ seqZ 19760 40) as Hin by (apply elem_of_seqZ; lia).
    clear Hd. revert d Hin. apply Forall_forall.
    apply (bool_decide_unpack _). vm_compute. exact I.
Defined.

(** C3. For every input list, the output of [normalizeTrips] is ascending by
    entry date, its trips are pairwise without a common day, each trip
    starts at least 2 days after the exit date of the trip before it (so no
    two consecutive trips are back to back), and it covers the same days
    as the input.  Of two trips, one ending the day before the other
    starts, it makes one trip; two trips with a free day or more between
    them stay two. *)
Theorem normalizeTrips_invariant (trips : list Trip) :
  let out := normalizeTrips trips in
  StronglySorted (fun a b => entryDate a <= entryDate b) out /\
  (forall i j a b, out !! i = Some a -> out !! j = Some b -> (i < j)%nat ->
     forall d, ~ (onTrip a d /\ onTrip b d)) /\
  (forall i a b, out !! i = Some a -> out !! S i = Some b ->
     exitDate a + 2 <= entryDate b) /\
  (forall d, covers out d <-> covers trips d) /\
  (forall a b, validTrip a -> validTrip b ->
     (entryDate b = exitDate a + 1 ->
        normalizeTrips [a; b] = [withExit a (exitDate b)] /\
        normalizeTrips [b; a] = [withExit a (exitDate b)]) /\
     (exitDate a + 2 <= entryDate b ->
        normalizeTrips [a; b] = [a; b] /\ normalizeTrips [b; a] = [a; b])).
Proof.
  intros out. destruct (normalizeTrips_chain trips) as [lo Hc].
  fold out in Hc. apply chain_separated in Hc.
  split; [|split; [|split; [|split]]].
  - eapply StronglySorted_weaken; [|exact Hc]. by intros a b [? _].
  - intros i j a b Hi Hj Hij d [Ha Hb].
    destruct (StronglySorted_lookup_lt _ _ _ _ _ _ Hc Hi Hj Hij) as [_ Hsep].
    unfold onTrip in *. lia.
  - intros i a b Hi Hj.
    by destruct (StronglySorted_lookup_lt _ _ i (S i) _ _ Hc Hi Hj) as [_ Hsep];
      [lia|].
  - apply normalizeTrips_covers.
  - intros a b Ha Hb. unfold validTrip in *.
    unfold normalizeTrips, sortByEntry; simpl. split; intros Hgap.
    + destruct (Z.leb_spec (entryDate a) (entryDate b)); [|lia].
      destruct (Z.leb_spec (entryDate b) (entryDate a)); [lia|].
      rewrite normalizeLoop_cons. case_decide; [|lia].
      by replace (Z.max (exitDate a) (exitDate b)) with (exitDate b) by lia.
    + destruct (Z.leb_spec (entryDate a) (entryDate b)); [|lia].
      destruct (Z.leb_spec (entryDate b) (entryDate a)); [lia|].
      rewrite normalizeLoop_cons. by case_decide; [lia|].
Qed.

Lemma normalizeTrips_invariant_witness :
  normalizeTrips [interval 95 105; interval 61 65; interval 91 100; interval 66 70] = [interval 61 70; interval 91 105] /\
  exitDate (interval 61 70) + 2 <= entryDate (interval 91 105) /\
  normalizeTrips [interval 66 70; interval 61 65] = [interval 61 70] /\
  normalizeTrips [interval 67 70; interval 61 65] = [interval 61 65; interval 67 70].
Proof.
  pose proof (normalizeTrips_invariant [interval 95 105; interval 61 65; interval 91 100; interval 66 70])
    as (_ & _ & Hgap & _ & Hpair).
  split; [reflexivity|]. split; [by apply (Hgap 0%nat)|].
  split.
  - apply (Hpair (interval 61 65) (interval 66 70)); unfold validTrip; simpl; lia.
  - apply (Hpair (interval 61 65) (interval 67 70)); unfold validTrip; simpl; lia.
Defined.

(** C4. For fixed trips and a fixed entry date [E], once a stay of some
    length is not allowed, no longer stay from [E] is allowed. *)
Theorem canStayForPeriod_monotone (trips : list Trip) (E k m : Z) :
  0 <= k -> k <= m ->
  isAllowed (canStayForPeriod trips E (E + k)) = false ->
  isAllowed (canStayForPeriod trips E (E + m)) = false.
Proof.
  intros Hk Hkm Hfail.
  destruct (canStayForPeriod_cases trips E (E + k))
    as [[Heq _]|(d & Hd & Hgt & _ & _)].
  { rewrite Heq in Hfail. discriminate. }
  destruct (canStayForPeriod_cases trips E (E + m))
    as [[_ Hall]|(d' & _ & _ & _ & ->)]; [|done].
  specialize (Hall d). rewrite combinedTrips_used in Hall, Hgt.
  assert (daysInWindow (covers (combinedTrips trips E (E + k))) d
          <= daysInWindow (covers (combinedTrips trips E (E + m))) d) as Hmono.
  { apply daysInWindow_mono. intros x.
    rewrite !combinedTrips_covers. intros [?|?]; [by left|right; lia]. }
  lia.
Qed.

Lemma canStayForPeriod_monotone_witness :
  isAllowed (canStayForPeriod [interval 0 49] 100 (100 + 40)) = false /\
  isAllowed (canStayForPeriod [interval 0 49] 100 (100 + 75)) = false.
Proof.
  split; [reflexivity|].
  apply (canStayForPeriod_monotone [interval 0 49] 100 40 75); [lia|lia|reflexivity].
Defined.

(** C5. The length [L] returned by [getMaxSafeStayFromDate] lies between 0
    and 90; the stay of [L] days from [E] is allowed, or [L] is 0; and when
    [L] is less than 90 the stay of [L + 1] days is not allowed. *)
Theorem getMaxSafeStayFromDate_boundary (trips : list Trip) (E : Z) :
  let L := maxDays (getMaxSafeStayFromDate trips E) in
  0 <= L <= 90 /\
  (L = 0 \/ isAllowed (canStayForPeriod trips E (E + L - 1)) = true) /\
  (L < 90 -> isAllowed (canStayForPeriod trips E (E + L)) = false).
Proof.
  intros L. subst L. unfold getMaxSafeStayFromDate. cbn [maxDays].
  pose proof (maxStayLoop_spec trips E 90 1) as Hspec.
  cbv zeta in Hspec. change (1 - 1) with 0 in Hspec.
  destruct Hspec as (Hb & Hok & Hfail).
  split; [lia|]. split.
  - destruct (decide (maxStayLoop trips E 1 90 0 = 0)) as [?|Hne]; [by left|].
    right. rewrite <- Z.add_sub_assoc. apply Hok. lia.
  - intros HL. apply Hfail. lia.
Qed.

Lemma getMaxSafeStayFromDate_boundary_witness :
  maxDays (getMaxSafeStayFromDate [interval 0 49] 100) = 40 /\
  isAllowed (canStayForPeriod [interval 0 49] 100 (100 + 40)) = false.
Proof.
  split; [reflexivity|].
  apply (getMaxSafeStayFromDate_boundary [interval 0 49] 100). reflexivity.
Defined.

(** C6 fails for a trip whose exit date is before its entry date: the
    expansion has no day of it, [normalizeTrips] keeps it. *)
Lemma collapse_expand_inverted_trip :
  dates <$> collapse (fun _ => "id") (expandTrips [mkTrip "a" 5 3]) = [] /\
  dates <$> normalizeTrips [mkTrip "a" 5 3] = [(5, 3)] /\
  dates <$> collapse (fun _ => "id") (expandTrips [mkTrip "a" 5 3]) <>
    dates <$> normalizeTrips [mkTrip "a" 5 3].
Proof. repeat split; vm_compute; [reflexivity..|discriminate]. Qed.

(** C6, amended.  For every list of trips that satisfy [entryDate <=
    exitDate], expanding the list to its set of days and collapsing the
    set gives the intervals of the normalized list (the identities of the
    trips are not compared). *)
Theorem collapse_expand_normalize (uuid : nat -> string) (l : list Trip) :
  Forall validTrip l ->
  dates <$> collapse uuid (expandTrips l) = dates <$> normalizeTrips l.
Proof.
  intros Hv.
  destruct (collapse_spec uuid (expandTrips l)) as ([lo1 Hc1] & Hv1 & Hcov1).
  destruct (normalizeTrips_chain l) as [lo2 Hc2].
  eapply chain_unique; [done|done|done|by apply normalizeTrips_valid|].
  intros d. by rewrite Hcov1, elem_of_expandTrips, normalizeTrips_covers.
Qed.

Lemma collapse_expand_normalize_witness :
  dates <$> collapse (fun _ => "id")
              (expandTrips [interval 95 105; interval 61 65; interval 91 100; interval 66 70]) =
    [(61, 70); (91, 105)] /\
  dates <$> normalizeTrips [interval 95 105; interval 61 65; interval 91 100; interval 66 70] =
    [(61, 70); (91, 105)].
Proof.
  assert (dates <$> normalizeTrips [interval 95 105; interval 61 65; interval 91 100; interval 66 70] =
          [(61, 70); (91, 105)]) as Hn by reflexivity.
  split; [|done]. rewrite <- Hn. apply collapse_expand_normalize.
  unfold validTrip. repeat constructor; simpl; lia.
Defined.

(** C7 fails on overlapping trips: two copies of a 180-day trip count 360
    days. *)
Lemma usedDays_bound_overlapping :
  Forall validTrip [interval 1 180; interval 1 180] /\
  ~ (0 <= calculateUsedDaysWithinWindow [interval 1 180; interval 1 180] 180 <= 180).
Proof.
  split.
  - unfold validTrip. repeat constructor; simpl; lia.
  - vm_compute. intros [_ Hle]. by apply Hle.
Qed.

(** C7, amended.  For every trip list that satisfies the
    NormalizedIntervalSet invariant, and so for every output of
    [normalizeTrips], and every reference date the usage is between 0 and
    180. *)
Theorem usedDays_bounds_normalized (trips : list Trip) (D : Z) :
  (NormalizedIntervalSet trips ->
     0 <= calculateUsedDaysWithinWindow trips D <= 180) /\
  0 <= calculateUsedDaysWithinWindow (normalizeTrips trips) D <= 180.
Proof.
  split.
  - intros [lo Hc]%NormalizedIntervalSet_chain.
    rewrite (used_chain_count _ _ _ Hc). apply daysInWindow_bounds.
  - destruct (normalizeTrips_chain trips) as [lo Hc].
    rewrite (used_chain_count _ _ _ Hc). apply daysInWindow_bounds.
Qed.

Lemma usedDays_bounds_normalized_witness :
  0 <= calculateUsedDaysWithinWindow [interval 1 100; interval 102 300] 250 <= 180.
Proof.
  apply (proj1 (usedDays_bounds_normalized [interval 1 100; interval 102 300] 250)).
  split.
  - unfold validTrip. repeat constructor; simpl; lia.
  - repeat constructor; unfold separated; simpl; lia.
Defined.



(** C9. When [canStayForPeriod] reports a violation, [usedOnExit] is the
    usage on the violation day, the first day of the stay whose usage
    exceeds 90, so it is more than 90; it is not the usage at the exit
    date: for a stay of 92 days with no other trip it is 91, and the usage
    at the exit date is 92. *)
Theorem canStayForPeriod_violation_usage :
  (forall (trips : list Trip) (E X : Z),
     let combined := normalizeTrips (trips ++ [tempTrip E X]) in
     let r := canStayForPeriod trips E X in
     isAllowed r = false ->
     exists d, E <= d <= X /\ violationDate r = Some d /\
       usedOnExit r = calculateUsedDaysWithinWindow combined d /\
       90 < usedOnExit r /\
       forall d', E <= d' < d ->
         calculateUsedDaysWithinWindow combined d' <= 90) /\
  (canStayForPeriod [] 1000 1091 =
     {| isAllowed := false; violationDate := Some 1090; usedOnExit := 91 |} /\
   calculateUsedDaysWithinWindow
     (normalizeTrips ([] ++ [tempTrip 1000 1091])) 1091 = 92).
Proof.
  split; [|split; reflexivity].
  intros trips E X combined r Hfail. subst combined r.
  change (normalizeTrips (trips ++ [tempTrip E X]))
    with (combinedTrips trips E X).
  destruct (canStayForPeriod_cases trips E X)
    as [[Heq _]|(d & Hd & Hgt & Hfirst & Heq)];
    rewrite Heq in Hfail |- *; [discriminate|].
  exists d. simpl. done.
Qed.

Lemma canStayForPeriod_violation_usage_witness :
  exists d, 100 <= d <= 145 /\
    violationDate (canStayForPeriod [interval 0 49] 100 145) = Some d /\
    90 < usedOnExit (canStayForPeriod [interval 0 49] 100 145).
Proof.
  destruct (proj1 canStayForPeriod_violation_usage [interval 0 49] 100 145)
    as (d & Hd & Hv & _ & Hgt & _); [reflexivity|].
  exists d. done.
Defined.

(** C10. When [getMaxSafeStayFromDate] returns [maxDays = 0], its
    [untilDate] is the day before the entry date. *)
Theorem getMaxSafeStayFromDate_zero_until (trips : list Trip) (E : Z) :
  maxDays (getMaxSafeStayFromDate trips E) = 0 ->
  untilDate (getMaxSafeStayFromDate trips E) = E - 1.
Proof.
  unfold getMaxSafeStayFromDate, addDays, format, parseISO. simpl.
  intros ->. lia.
Qed.

Lemma getMaxSafeStayFromDate_zero_until_witness :
  maxDays (getMaxSafeStayFromDate [interval (-89) 0] 1) = 0 /\
  untilDate (getMaxSafeStayFromDate [interval (-89) 0] 1) = 1 - 1.
Proof.
  split; [reflexivity|].
  apply (getMaxSafeStayFromDate_zero_until [interval (-89) 0] 1). reflexivity.
Defined.

(** * Further properties of the engine *)

(** ** More on normalizeTrips *)

Lemma StronglySorted_separated_chain lo l :
  StronglySorted separated l ->
  Forall (fun t => lo <= entryDate t) l -> chain lo l.
Proof.
  intros Hs. revert lo. induction Hs as [|t l Hs IH Hsep]; intros lo Hlo.
  - done.
  - inversion Hlo; subst. simpl. split; [done|].
    apply IH. eapply Forall_impl; [exact Hsep|].
    unfold separated; simpl. lia.
Qed.

Lemma chain_iff_separated l :
  (exists lo, chain lo l) <-> StronglySorted separated l.
Proof.
  split.
  - intros [lo Hc]. by eapply chain_separated.
  - intros Hs. destruct l as [|t l]; [by exists 0|].
    exists (entryDate t). apply StronglySorted_separated_chain; [done|].
    constructor; [lia|]. inversion Hs as [|? ? _ Hsep]; subst.
    eapply Forall_impl; [exact Hsep|]. unfold separated. simpl. lia.
Qed.

Lemma fromInput_mono l l' o :
  (forall t, t ∈ l -> t ∈ l') -> fromInput l o -> fromInput l' o.
Proof.
  intros Hsub [(t & Ht & ?) (u & Hu & ?)].
  split; [exists t|exists u]; auto.
Qed.

Lemma normalizeLoop_fromInput c rest l :
  fromInput l c -> (forall t, t ∈ rest -> t ∈ l) ->
  Forall (fromInput l) (normalizeLoop [] c rest) /\
  (length (normalizeLoop [] c rest) <= S (length rest))%nat.
Proof.
  revert c. induction rest as [|n rest IH]; intros c Hc Hrest.
  - simpl. split; [|done]. constructor; [done|constructor].
  - rewrite normalizeLoop_cons. case_decide.
    + destruct (IH (withExit c (Z.max (exitDate c) (exitDate n)))) as [HF Hlen].
      * destruct Hc as [Hid Hexit]. split; [done|]. simpl.
        destruct (Z.max_spec (exitDate c) (exitDate n)) as [[_ ->]|[_ ->]].
        -- exists n. split; [apply Hrest; left|done].
        -- done.
      * intros t Ht. apply Hrest. by right.
      * split; [done|]. simpl. lia.
    + destruct (IH n) as [HF Hlen].
      * assert (n ∈ l) by (apply Hrest; left).
        split; exists n; done.
      * intros t Ht. apply Hrest. by right.
      * split; [by constructor|]. simpl. lia.
Qed.

Lemma length_filter_or_le (P Q : Z -> Prop)
    `{forall x, Decision (P x)} `{forall x, Decision (Q x)} (l : list Z) :
  (length (filter (fun x => P x \/ Q x) l) <=
     length (filter P l) + length (filter Q l))%nat.
Proof.
  induction l as [|x l IH]; [done|].
  rewrite !filter_cons.
  destruct (decide (P x)), (decide (Q x)); case_decide; simpl;
    try tauto; lia.
Qed.

Lemma covered_le_used l D :
  daysInWindow (covers l) D <= calculateUsedDaysWithinWindow l D.
Proof.
  rewrite used_sum. induction l as [|t l IH]; csimpl.
  - unfold daysInWindow. rewrite length_filter_none; [done|].
    apply Forall_forall. intros d _ Hd. by apply covers_nil in Hd.
  - rewrite overlapDays_count. unfold daysInWindow in *.
    rewrite (list_filter_iff (covers (t :: l))
               (fun d => onTrip t d \/ covers l d))
      by (intros; apply covers_cons).
    pose proof (length_filter_or_le (onTrip t) (covers l) (window D)). lia.
Qed.

(** X1. [normalizeTrips] is idempotent, and the lists it returns unchanged
    are those in which every trip enters at least 2 days after the exit
    date, and not before the entry date, of each trip before it. *)
Theorem normalizeTrips_fixed_points (l : list Trip) :
  normalizeTrips (normalizeTrips l) = normalizeTrips l /\
  (normalizeTrips l = l <-> StronglySorted separated l).
Proof.
  split.
  - destruct (normalizeTrips_chain l) as [lo Hc].
    by eapply normalizeTrips_chain_id.
  - split.
    + intros Heq. rewrite <- Heq. apply chain_iff_separated.
      apply normalizeTrips_chain.
    + intros [lo Hc]%chain_iff_separated. by eapply normalizeTrips_chain_id.
Qed.

(** X2. On trips with [entryDate <= exitDate] the intervals of the output
    of [normalizeTrips] do not depend on the order of the input. *)
Theorem normalizeTrips_order_independent (l1 l2 : list Trip) :
  Forall validTrip l1 -> l1 ≡ₚ l2 ->
  dates <$> normalizeTrips l1 = dates <$> normalizeTrips l2.
Proof.
  intros Hv Hp.
  destruct (normalizeTrips_chain l1) as [lo1 Hc1].
  destruct (normalizeTrips_chain l2) as [lo2 Hc2].
  eapply chain_unique; [done|done|..].
  - by apply normalizeTrips_valid.
  - apply normalizeTrips_valid. by rewrite <- Hp.
  - intros d. rewrite !normalizeTrips_covers. by apply covers_Permutation.
Qed.

Lemma normalizeTrips_order_independent_witness :
  dates <$> normalizeTrips [interval 95 105; interval 61 65; interval 91 100] =
  dates <$> normalizeTrips [interval 91 100; interval 95 105; interval 61 65].
Proof.
  apply normalizeTrips_order_independent.
  - unfold validTrip. repeat constructor; simpl; lia.
  - symmetry.
    apply (Permutation_cons_append [interval 95 105; interval 61 65]
             (interval 91 100)).
Defined.

(** X3. [normalizeTrips] invents nothing: its output is not longer than
    its input, and each trip of the output has the identity and the entry
    date of one input trip and the exit date of an input trip. *)
Theorem normalizeTrips_from_input (l : list Trip) :
  (length (normalizeTrips l) <= length l)%nat /\
  forall o, o ∈ normalizeTrips l ->
    (exists t, t ∈ l /\ trip_id o = trip_id t /\ entryDate o = entryDate t) /\
    (exists t, t ∈ l /\ exitDate o = exitDate t).
Proof.
  destruct l as [|t l]; [split; [done|]; by intros o ?%elem_of_nil|].
  destruct (normalizeTrips_unfold t l) as (c & rest & Hs & _ & ->).
  pose proof (sortByEntry_Permutation (t :: l)) as Hp. rewrite Hs in Hp.
  destruct (normalizeLoop_fromInput c rest (t :: l)) as [HF Hlen].
  - assert (c ∈ t :: l) by (rewrite <- Hp; left).
    split; exists c; done.
  - intros u Hu. rewrite <- Hp. by right.
  - split.
    + apply Permutation_length in Hp. simpl in *. lia.
    + intros o Ho. rewrite Forall_forall in HF. apply (HF o Ho).
Qed.

Lemma normalizeTrips_from_input_witness :
  exists t, t ∈ [mkTrip "a" 95 105; mkTrip "b" 91 100] /\
    trip_id (mkTrip "b" 91 105) = trip_id t /\
    entryDate (mkTrip "b" 91 105) = entryDate t.
Proof.
  apply (normalizeTrips_from_input [mkTrip "a" 95 105; mkTrip "b" 91 100]).
  vm_compute. left.
Defined.

(** X4. In every zone, the usage of the normalized list is the number of
    days of the window on which the traveller is present, less the day
    lost at the edge of a window that starts late: never more than the
    days of presence and at most one day less.  When the reference date
    has a 00:00 it is that number of days, and never more than the usage
    computed on the list as given; in Africa/Cairo on 26 April 2024 the
    normalized list [19660 .. 19665] has usage 6 where the list as given
    has 5. *)
Theorem normalizeTrips_usage (dayStart : Z -> Z) (l : list Trip) (D : Z) :
  let used :=
    Zoned.calculateUsedDaysWithinWindow dayStart
      (Zoned.normalizeTrips dayStart l) D in
  used = daysInWindow (covers l) D - windowEdgeLost dayStart (covers l) D /\
  daysInWindow (covers l) D - 1 <= used <= daysInWindow (covers l) D /\
  (dayStart D <= 0 ->
     used = daysInWindow (covers l) D /\
     used <= Zoned.calculateUsedDaysWithinWindow dayStart l D) /\
  (Zoned.calculateUsedDaysWithinWindow Zoned.cairo
     (Zoned.normalizeTrips Zoned.cairo
        [interval 19660 19660; interval 19661 19665]) 19839 = 6 /\
   Zoned.calculateUsedDaysWithinWindow Zoned.cairo
     [interval 19660 19660; interval 19661 19665] 19839 = 5).
Proof.
  intros used. subst used. rewrite zoned_normalizeTrips.
  destruct (normalizeTrips_chain l) as [lo Hc].
  assert (Zoned.calculateUsedDaysWithinWindow dayStart (normalizeTrips l) D =
          daysInWindow (covers l) D - windowEdgeLost dayStart (covers l) D)
    as Heq.
  { rewrite (zoned_used_chain dayStart _ _ D Hc). f_equal.
    - apply daysInWindow_ext. intros d. apply normalizeTrips_covers.
    - apply windowEdgeLost_ext. intros d. apply normalizeTrips_covers. }
  pose proof (windowEdgeLost_bounds dayStart (covers l) D) as Hb.
  split; [done|]. split; [lia|]. split; [|by split].
  intros Hmid. rewrite Heq, windowEdgeLost_midnight, zoned_used_midnight by done.
  pose proof (covered_le_used l D). lia.
Qed.

Lemma normalizeTrips_usage_witness :
  Zoned.calculateUsedDaysWithinWindow Zoned.cairo
    (Zoned.normalizeTrips Zoned.cairo
       [interval 19665 19670; interval 19668 19680]) 19840 = 16 /\
  16 <= Zoned.calculateUsedDaysWithinWindow Zoned.cairo
          [interval 19665 19670; interval 19668 19680] 19840.
Proof.
  assert (Zoned.cairo 19840 <= 0) as Hmid by (vm_compute; discriminate).
  destruct (normalizeTrips_usage Zoned.cairo
              [interval 19665 19670; interval 19668 19680] 19840)
    as (_ & _ & Hm & _).
  destruct (Hm Hmid) as [Hcount Hle]. split; [|exact Hle].
  rewrite Hcount. reflexivity.
Defined.

(** ** More on canStayForPeriod and getMaxSafeStayFromDate *)

Lemma canStay_allowed_iff trips E X :
  isAllowed (canStayForPeriod trips E X) = true <->
  forall d, E <= d <= X ->
    calculateUsedDaysWithinWindow (combinedTrips trips E X) d <= 90.
Proof.
  destruct (canStayForPeriod_cases trips E X)
    as [[-> Hall]|(d & Hd & Hgt & _ & ->)]; simpl.
  - done.
  - split; [done|]. intros Hall. specialize (Hall d Hd). lia.
Qed.

Lemma used_combined_mono trips1 trips2 E X1 X2 d :
  (forall x, covers trips1 x -> covers trips2 x) -> X1 <= X2 ->
  calculateUsedDaysWithinWindow (combinedTrips trips1 E X1) d <=
    calculateUsedDaysWithinWindow (combinedTrips trips2 E X2) d.
Proof.
  intros Hsub HX. rewrite !combinedTrips_used. apply daysInWindow_mono.
  intros x. rewrite !combinedTrips_covers. intros [?|?]; [left; auto|right; lia].
Qed.

(** A stay that is allowed stays allowed when it is shortened and when days
    are taken out of the history. *)
Lemma canStay_allowed_anti trips1 trips2 E X1 X2 :
  (forall x, covers trips1 x -> covers trips2 x) -> X1 <= X2 ->
  isAllowed (canStayForPeriod trips2 E X2) = true ->
  isAllowed (canStayForPeriod trips1 E X1) = true.
Proof.
  rewrite !canStay_allowed_iff. intros Hsub HX Hall d Hd.
  pose proof (used_combined_mono trips1 trips2 E X1 X2 d Hsub HX).
  specialize (Hall d). lia.
Qed.

Lemma daysInWindow_interval lo hi D :
  daysInWindow (fun d => lo <= d <= hi) D =
    Z.max 0 (Z.min hi D - Z.max lo (D - 179) + 1).
Proof.
  unfold daysInWindow, window. change 180 with (Z.of_nat 180).
  rewrite count_interval. lia.
Qed.

(** No stay of more than 90 days is allowed. *)
Lemma canStay_over_90 trips E X :
  E + 90 <= X -> isAllowed (canStayForPeriod trips E X) = false.
Proof.
  intros HX. apply not_true_is_false. rewrite canStay_allowed_iff.
  intros Hall. specialize (Hall (E + 90)). rewrite combinedTrips_used in Hall.
  assert (daysInWindow (fun d => E <= d <= E + 90) (E + 90) <=
          daysInWindow (covers (combinedTrips trips E X)) (E + 90)) as Hmono.
  { apply daysInWindow_mono. intros d Hd.
    apply combinedTrips_covers. right. lia. }
  rewrite daysInWindow_interval in Hmono. lia.
Qed.

Lemma maxDays_facts trips E :
  let L := maxDays (getMaxSafeStayFromDate trips E) in
  0 <= L <= 90 /\
  (1 <= L -> isAllowed (canStayForPeriod trips E (E + (L - 1))) = true) /\
  (L < 90 -> isAllowed (canStayForPeriod trips E (E + L)) = false).
Proof.
  cbv zeta. unfold getMaxSafeStayFromDate. cbn [maxDays].
  pose proof (maxStayLoop_spec trips E 90 1) as Hspec.
  cbv zeta in Hspec. change (1 - 1) with 0 in Hspec.
  destruct Hspec as (Hb & Hok & Hfail).
  split; [lia|]. split; [done|]. intros HL. apply Hfail. lia.
Qed.

Lemma canStay_empty_history E X :
  E <= X ->
  canStayForPeriod [] E X =
    if X - E <? 90
    then {| isAllowed := true; violationDate := None; usedOnExit := X - E + 1 |}
    else {| isAllowed := false; violationDate := Some (E + 90);
            usedOnExit := 91 |}.
Proof.
  intros HEX.
  assert (forall d, E <= d <= X ->
    calculateUsedDaysWithinWindow (combinedTrips [] E X) d =
      Z.min (d - E + 1) 180) as Hused.
  { intros d Hd. change (combinedTrips [] E X) with [tempTrip E X].
    rewrite used_sum. csimpl. rewrite overlapDays_eq. simpl. lia. }
  destruct (canStayForPeriod_cases [] E X)
    as [[-> Hall]|(d & Hd & Hgt & Hfirst & ->)].
  - specialize (Hall X). rewrite !Hused in * by lia.
    destruct (Z.ltb_spec (X - E) 90); [|lia]. f_equal. lia.
  - rewrite Hused in * by lia.
    assert (d = E + 90) as ->.
    { destruct (decide (d = E + 90)) as [|Hne]; [done|].
      specialize (Hfirst (E + 90)). rewrite Hused in Hfirst by lia. lia. }
    destruct (Z.ltb_spec (X - E) 90); [lia|]. f_equal. lia.
Qed.

(** X5. With no trip in the history, a stay from [E] to [X] is allowed
    when it has at most 90 days, with its length as usage; a longer one is
    refused on its 91st day with usage 91.  The longest stay from [E] is
    then 90 days, until [E + 89], whatever [E] is. *)
Theorem empty_history_stay (E : Z) :
  (forall X, E <= X ->
     canStayForPeriod [] E X =
       if X - E <? 90
       then {| isAllowed := true; violationDate := None;
               usedOnExit := X - E + 1 |}
       else {| isAllowed := false; violationDate := Some (E + 90);
               usedOnExit := 91 |}) /\
  getMaxSafeStayFromDate [] E = {| maxDays := 90; untilDate := E + 89 |}.
Proof.
  split; [apply canStay_empty_history|].
  destruct (maxDays_facts [] E) as (Hb & _ & Hfail). cbv zeta in *.
  assert (maxDays (getMaxSafeStayFromDate [] E) = 90) as HL.
  { destruct (decide (maxDays (getMaxSafeStayFromDate [] E) = 90)) as [|Hne];
      [done|].
    assert (maxDays (getMaxSafeStayFromDate [] E) < 90) as Hlt by lia.
    specialize (Hfail Hlt). rewrite canStay_empty_history in Hfail by lia.
    destruct (Z.ltb_spec (E + maxDays (getMaxSafeStayFromDate [] E) - E) 90);
      [discriminate|lia]. }
  unfold getMaxSafeStayFromDate, addDays, format, parseISO in *. simpl in *.
  by rewrite HL.
Qed.

Lemma empty_history_stay_witness :
  canStayForPeriod [] 7 96 =
    {| isAllowed := true; violationDate := None; usedOnExit := 90 |} /\
  canStayForPeriod [] 7 200 =
    {| isAllowed := false; violationDate := Some 97; usedOnExit := 91 |}.
Proof.
  split.
  - apply (proj1 (empty_history_stay 7) 96). lia.
  - apply (proj1 (empty_history_stay 7) 200). lia.
Defined.

(** X6. [maxDays] is exactly the greatest allowed length: a stay of
    [k >= 1] days from [E] is allowed if and only if [k] is at most the
    [maxDays] of [getMaxSafeStayFromDate]. *)
Theorem maxDays_characterises_allowed (trips : list Trip) (E k : Z) :
  1 <= k ->
  (isAllowed (canStayForPeriod trips E (E + k - 1)) = true <->
   k <= maxDays (getMaxSafeStayFromDate trips E)).
Proof.
  intros Hk. destruct (maxDays_facts trips E) as (Hb & Hok & Hfail).
  cbv zeta in *. set (L := maxDays (getMaxSafeStayFromDate trips E)) in *.
  split.
  - intros Hall. destruct (decide (k <= L)) as [|Hgt]; [done|]. exfalso.
    destruct (decide (L = 90)) as [HL|HL].
    + rewrite canStay_over_90 in Hall by lia. discriminate.
    + assert (isAllowed (canStayForPeriod trips E (E + L)) = true) as Hshort.
      { eapply (canStay_allowed_anti trips trips E (E + L) (E + k - 1));
          [done|lia|done]. }
      rewrite Hfail in Hshort by lia. discriminate.
  - intros HkL.
    eapply (canStay_allowed_anti trips trips E (E + k - 1) (E + (L - 1)));
      [done|lia|]. apply Hok. lia.
Qed.

Lemma maxDays_characterises_allowed_witness :
  isAllowed (canStayForPeriod [interval 0 49] 100 (100 + 25 - 1)) = true <->
  25 <= maxDays (getMaxSafeStayFromDate [interval 0 49] 100).
Proof.
  apply (maxDays_characterises_allowed [interval 0 49] 100 25). lia.
Defined.

(** X7. More history never helps: when every day of [trips1] is a day of
    [trips2], a stay allowed with [trips2] is allowed with [trips1], and
    the longest stay with [trips2] is not longer than with [trips1]. *)
Theorem more_history_less_stay (trips1 trips2 : list Trip) (E : Z) :
  (forall d, covers trips1 d -> covers trips2 d) ->
  (forall X, isAllowed (canStayForPeriod trips2 E X) = true ->
             isAllowed (canStayForPeriod trips1 E X) = true) /\
  maxDays (getMaxSafeStayFromDate trips2 E) <=
    maxDays (getMaxSafeStayFromDate trips1 E).
Proof.
  intros Hsub. split.
  - intros X. by apply canStay_allowed_anti.
  - destruct (maxDays_facts trips1 E) as (Hb1 & _ & Hfail1).
    destruct (maxDays_facts trips2 E) as (Hb2 & Hok2 & _).
    cbv zeta in *.
    set (L1 := maxDays (getMaxSafeStayFromDate trips1 E)) in *.
    set (L2 := maxDays (getMaxSafeStayFromDate trips2 E)) in *.
    destruct (decide (L2 <= L1)) as [|Hgt]; [done|]. exfalso.
    assert (isAllowed (canStayForPeriod trips1 E (E + L1)) = true) as Hshort.
    { eapply (canStay_allowed_anti trips1 trips2 E (E + L1) (E + (L2 - 1)));
        [done|lia|]. apply Hok2. lia. }
    rewrite Hfail1 in Hshort by lia. discriminate.
Qed.

Lemma more_history_less_stay_witness :
  maxDays (getMaxSafeStayFromDate [interval 0 49; interval 60 69] 100) <=
  maxDays (getMaxSafeStayFromDate [interval 0 49] 100).
Proof.
  apply (more_history_less_stay [interval 0 49] [interval 0 49; interval 60 69]).
  intros d Hd. apply covers_cons in Hd as [Hd|Hd]; [|by apply covers_nil in Hd].
  apply covers_cons. by left.
Defined.

(** X8. The trip checker evaluates [canStayForPeriod] only when the exit
    date is not before the entry date: otherwise its result is null and
    the duration shown is 0.  (Called with an exit date before the entry
    date, [canStayForPeriod] scans no day and answers allowed.)  When a
    result is shown the duration is the number of days from entry to exit,
    and for an allowed result the days remaining, [max(0, 90 - usedOnExit)],
    are [90 - usedOnExit]. *)
Theorem calculatorResult_guard (trips : list Trip) (entry exit : Z) :
  (exit < entry ->
     calculatorResult trips entry exit = None /\ duration entry exit = 0 /\
     isAllowed (canStayForPeriod trips entry exit) = true /\
     violationDate (canStayForPeriod trips entry exit) = None) /\
  (entry <= exit ->
     calculatorResult trips entry exit =
       Some (canStayForPeriod trips entry exit) /\
     duration entry exit = exit - entry + 1 /\
     (isAllowed (canStayForPeriod trips entry exit) = true ->
      Z.max 0 (90 - usedOnExit (canStayForPeriod trips entry exit)) =
        90 - usedOnExit (canStayForPeriod trips entry exit))).
Proof.
  unfold calculatorResult, duration, isBefore, differenceInCalendarDays, parseISO.
  split; intros Hlt.
  - destruct (Z.ltb_spec exit entry); [|lia]. simpl.
    split; [done|]. split; [done|].
    destruct (canStayForPeriod_cases trips entry exit)
      as [[-> _]|(d & Hd & _)]; [done|lia].
  - destruct (Z.ltb_spec exit entry); [lia|]. simpl.
    split; [done|]. split; [done|].
    destruct (canStayForPeriod_cases trips entry exit)
      as [[-> Hall]|(d & _ & _ & _ & ->)]; cbn [isAllowed usedOnExit].
    + intros _. specialize (Hall exit). lia.
    + discriminate.
Qed.

Lemma calculatorResult_guard_witness :
  calculatorResult [interval 0 49] 139 100 = None /\
  calculatorResult [interval 0 49] 100 139 =
    Some {| isAllowed := true; violationDate := None; usedOnExit := 90 |}.
Proof.
  split.
  - apply (proj1 (calculatorResult_guard [interval 0 49] 139 100)). lia.
  - assert (100 <= 139) as Hle by lia.
    destruct (proj2 (calculatorResult_guard [interval 0 49] 100 139) Hle)
      as (-> & _). reflexivity.
Defined.

(** ** More on the presence-set codec *)

Lemma covers_collapse uuid (s : gset Z) d : covers (collapse uuid s) d <-> d ∈ s.
Proof. by destruct (collapse_spec uuid s) as (_ & _ & ->). Qed.

Lemma covers_toggleProfile uuid p d x :
  covers (trips (toggleProfile uuid p d)) x <->
  (x = d /\ ~ covers (trips p) d) \/ (x <> d /\ covers (trips p) x).
Proof.
  unfold toggleProfile, updateTripsFromSet. cbn [trips].
  rewrite covers_collapse. case_decide as Hin.
  - rewrite elem_of_difference, elem_of_singleton, !elem_of_expandTrips.
    rewrite elem_of_expandTrips in Hin. split; [intros [? ?]; by right|].
    intros [[_ ?]|[? ?]]; done.
  - rewrite elem_of_union, elem_of_singleton, !elem_of_expandTrips.
    rewrite elem_of_expandTrips in Hin.
    destruct (decide (x = d)) as [->|]; [by intuition|]. intuition.
Qed.

Lemma same_days_same_dates l1 l2 :
  NormalizedIntervalSet l1 -> NormalizedIntervalSet l2 ->
  (forall d, covers l1 d <-> covers l2 d) -> dates <$> l1 = dates <$> l2.
Proof.
  intros H1 H2 Hcov.
  destruct (NormalizedIntervalSet_chain _ H1) as [lo1 Hc1].
  destruct (NormalizedIntervalSet_chain _ H2) as [lo2 Hc2].
  destruct H1 as [Hv1 _]. destruct H2 as [Hv2 _].
  by eapply chain_unique.
Qed.

Lemma collapse_normalized uuid (s : gset Z) :
  NormalizedIntervalSet (collapse uuid s).
Proof.
  destruct (collapse_spec uuid s) as ([lo Hc] & Hv & _).
  split; [done|]. by eapply chain_separated.
Qed.

(** X9. [toggleDate] changes the presence of the given day and of no other
    day; toggling the same day twice in a stored (normalized) trip list
    gives back its intervals. *)
Theorem toggle_flips_one_day (uuid1 uuid2 : nat -> string) (p : Profile)
    (d : Z) :
  (forall x, covers (trips (toggleProfile uuid1 p d)) x <->
     if decide (x = d) then ~ covers (trips p) d else covers (trips p) x) /\
  (NormalizedIntervalSet (trips p) ->
   dates <$> trips (toggleProfile uuid2 (toggleProfile uuid1 p d) d) =
     dates <$> trips p).
Proof.
  split.
  - intros x. rewrite covers_toggleProfile. case_decide; intuition.
  - intros Hn. apply same_days_same_dates; [apply collapse_normalized|done|].
    intros x. rewrite !covers_toggleProfile.
    destruct (decide (x = d)) as [->|]; [|intuition].
    destruct (decide (covers (trips p) d)); intuition.
Qed.

Lemma toggle_flips_one_day_witness :
  dates <$> trips (toggleProfile (fun _ => "b")
                     (toggleProfile (fun _ => "a")
                        (mkProfile "default" "Me" [interval 10 12; interval 20 20])
                        11) 11) =
  [(10, 12); (20, 20)].
Proof.
  apply (toggle_flips_one_day (fun _ => "a") (fun _ => "b")
           (mkProfile "default" "Me" [interval 10 12; interval 20 20]) 11).
  split.
  - unfold validTrip. repeat constructor; simpl; lia.
  - repeat constructor; unfold separated; simpl; lia.
Defined.

(** X10. [addTripRange] adds the days between its two dates, in either
    order of the two clicks, and no other day; the two orders give the
    same result. *)
Theorem addTripRange_adds_range (uuid : nat -> string) (p : Profile)
    (a b : Z) :
  (forall x, covers (trips (addRangeProfile uuid p a b)) x <->
     covers (trips p) x \/ Z.min a b <= x <= Z.max a b) /\
  addRangeProfile uuid p a b = addRangeProfile uuid p b a.
Proof.
  split.
  - intros x. unfold addRangeProfile, updateTripsFromSet. cbn [trips].
    rewrite covers_collapse, elem_of_addAll, elem_of_expandTrips.
    unfold eachDayOfInterval, format, isBefore, isAfter, parseISO.
    rewrite list_elem_of_fmap.
    assert ((exists y, x = y /\
               y ∈ seqZ (if a <? b then a else b)
                     ((if b <? a then a else b) - (if a <? b then a else b) + 1))
            <-> Z.min a b <= x <= Z.max a b) as ->; [|done].
    setoid_rewrite elem_of_seqZ.
    destruct (Z.ltb_spec a b), (Z.ltb_spec b a); split;
      try (intros (y & -> & ?); lia); intros ?; exists x; lia.
  - unfold addRangeProfile, isBefore, isAfter, parseISO.
    destruct (Z.ltb_spec a b), (Z.ltb_spec b a); try done; try lia.
    by replace b with a by lia.
Qed.

(** X11. Expanding the trips that [updateTripsFromSet] builds from a date
    set gives the date set back, so collapsing again changes nothing. *)
Theorem expand_collapse_round_trip (uuid : nat -> string) (s : gset Z) :
  expandTrips (collapse uuid s) = s /\
  collapse uuid (expandTrips (collapse uuid s)) = collapse uuid s.
Proof.
  assert (expandTrips (collapse uuid s) = s) as Heq.
  { apply set_eq. intros d. by rewrite elem_of_expandTrips, covers_collapse. }
  split; [done|]. by rewrite Heq.
Qed.

(** ** The window breakdown *)

Lemma isPresent_covers trips d : isPresent trips d = true <-> covers trips d.
Proof.
  unfold isPresent, covers, isBefore, isAfter, parseISO.
  induction trips as [|t trips IH]; simpl.
  - rewrite Exists_nil. split; [discriminate|done].
  - rewrite orb_true_iff, IH, Exists_cons. unfold onTrip.
    rewrite andb_true_iff, !negb_true_iff, !Z.ltb_ge. tauto.
Qed.

Lemma foldl_push_filter (f : Z -> bool) (acc l : list Z) :
  foldl (fun acc d => if f d then acc ++ [d] else acc) acc l =
    acc ++ filter (fun d => f d = true) l.
Proof.
  revert acc. induction l as [|x l IH]; intros acc; simpl.
  - by rewrite app_nil_r.
  - rewrite IH, filter_cons. destruct (f x) eqn:Hf; case_decide; try done.
    by rewrite <- app_assoc.
Qed.

Lemma presentDaysInWindow_filter trips D :
  presentDaysInWindow trips D = filter (covers trips) (window D).
Proof.
  unfold presentDaysInWindow, eachDayOfInterval, subDaysPolyfill, addDays,
    parseISO, window.
  rewrite foldl_push_filter, app_nil_l.
  replace (D + - (179)) with (D - 179) by lia.
  replace (D - (D - 179) + 1) with 180 by lia.
  apply list_filter_iff. intros d. apply isPresent_covers.
Qed.

Lemma violationDays_filter trips D :
  violationDays trips D =
    filter (fun d => 90 < calculateUsedDaysWithinWindow trips d)
           (filter (covers trips) (window D)).
Proof.
  unfold violationDays, format. rewrite presentDaysInWindow_filter.
  rewrite (foldl_push_filter
             (fun d => 90 <? calculateUsedDaysWithinWindow trips d)). simpl.
  apply list_filter_iff. intros d. apply Z.ltb_lt.
Qed.

Lemma elem_of_violationDays trips D x :
  x ∈ violationDays trips D <->
  D - 179 <= x <= D /\ covers trips x /\
  90 < calculateUsedDaysWithinWindow trips x.
Proof.
  rewrite violationDays_filter, !list_elem_of_filter.
  unfold window. rewrite elem_of_seqZ. intuition lia.
Qed.

Lemma StronglySorted_seqZ a (n : nat) :
  StronglySorted Z.lt (seqZ a (Z.of_nat n)).
Proof.
  revert a. induction n as [|n IH]; intros a.
  - rewrite seqZ_nil by lia. constructor.
  - rewrite seqZ_cons by lia.
    replace (Z.pred (Z.of_nat (S n))) with (Z.of_nat n) by lia.
    constructor; [apply IH|]. apply Forall_seqZ. intros; lia.
Qed.

Lemma StronglySorted_filter_Z (R : relation Z) (P : Z -> Prop)
    `{forall x, Decision (P x)} l :
  StronglySorted R l -> StronglySorted R (filter P l).
Proof.
  induction 1 as [|x l Hs IH Hx]; [constructor|].
  rewrite filter_cons. case_decide; [|done].
  constructor; [done|]. rewrite Forall_forall in *.
  intros y [_ Hy]%list_elem_of_filter. by apply Hx.
Qed.

(** The days of one window that satisfy [P] are counted in any window
    that contains them. *)
Lemma daysInWindow_sub (P : Z -> Prop) `{forall d, Decision (P d)} D1 D2 :
  (forall x, D1 - 179 <= x <= D1 -> P x -> D2 - 179 <= x <= D2) ->
  daysInWindow P D1 <= daysInWindow P D2.
Proof.
  intros Hsub. unfold daysInWindow. apply inj_le, submseteq_length.
  apply NoDup_submseteq.
  - apply NoDup_filter, NoDup_seqZ.
  - intros x [HP Hx]%list_elem_of_filter. apply list_elem_of_filter.
    split; [done|]. unfold window in *. apply elem_of_seqZ in Hx.
    apply elem_of_seqZ. specialize (Hsub x ltac:(lia) HP). lia.
Qed.

Lemma list_filter_iff_daysInWindow trips D r d :
  daysInWindow (covers (combinedTrips trips (D + 1) (D + r))) d =
    daysInWindow (fun x => covers trips x \/ D + 1 <= x <= D + r) d.
Proof.
  unfold daysInWindow. f_equal. f_equal. apply list_filter_iff.
  intros x. apply combinedTrips_covers.
Qed.

Lemma daysInWindow_or_le (P Q : Z -> Prop)
    `{forall d, Decision (P d)} `{forall d, Decision (Q d)} D :
  daysInWindow (fun d => P d \/ Q d) D <= daysInWindow P D + daysInWindow Q D.
Proof.
  unfold daysInWindow.
  pose proof (length_filter_or_le P Q (window D)). lia.
Qed.

(** The last day up to [D], among the [n] days before [D] and [D], that
    satisfies [P], if there is one. *)
Lemma latest_day (P : Z -> Prop) `{forall d, Decision (P d)} D (n : nat) :
  (exists x, D - Z.of_nat n < x <= D /\ P x /\
             forall z, x < z <= D -> ~ P z) \/
  (forall x, D - Z.of_nat n < x <= D -> ~ P x).
Proof.
  induction n as [|n [IH|IH]].
  - right. intros x Hx. lia.
  - left. destruct IH as (x & Hx & HP & Hlast). exists x.
    split; [lia|done].
  - destruct (decide (P (D - Z.of_nat n))) as [HP|HP].
    + left. exists (D - Z.of_nat n). split; [lia|]. split; [done|].
      intros z Hz. apply IH. lia.
    + right. intros x Hx.
      destruct (decide (x = D - Z.of_nat n)) as [->|]; [done|].
      apply IH. lia.
Qed.

(** X12. The violation days of the breakdown are the days of the window
    of the reference date on which the traveller is present and the usage
    measured on that day exceeds 90; they are listed in ascending order,
    each once. *)
Theorem violationDays_spec (trips : list Trip) (D : Z) :
  (forall x, x ∈ violationDays trips D <->
     D - 179 <= x <= D /\ covers trips x /\
     90 < calculateUsedDaysWithinWindow trips x) /\
  StronglySorted Z.lt (violationDays trips D) /\
  (length (violationDays trips D) <= 180)%nat.
Proof.
  split; [apply elem_of_violationDays|].
  rewrite violationDays_filter. split.
  - do 2 apply StronglySorted_filter_Z. unfold window.
    change 180 with (Z.of_nat 180). apply StronglySorted_seqZ.
  - etrans; [apply length_filter|]. etrans; [apply length_filter|].
    unfold window. by rewrite length_seqZ.
Qed.

(** X13. On a normalized trip list, whenever the usage shown for the
    reference date exceeds 90 the breakdown lists a violation day: the
    last day of presence up to the reference date, whose usage is at
    least the usage shown. *)
Theorem overstay_is_reported (trips : list Trip) (D : Z) :
  StronglySorted separated trips ->
  90 < calculateUsedDaysWithinWindow trips D ->
  exists x, x ∈ violationDays trips D /\
    calculateUsedDaysWithinWindow trips D <=
      calculateUsedDaysWithinWindow trips x /\
    forall z, x < z <= D -> ~ covers trips z.
Proof.
  intros [lo Hc]%chain_iff_separated Hover.
  rewrite (used_chain_count _ _ _ Hc) in Hover.
  destruct (latest_day (covers trips) D 180) as [(x & Hx & HP & Hlast)|Hnone].
  - exists x.
    assert (daysInWindow (covers trips) D <= daysInWindow (covers trips) x)
      as Hle.
    { apply daysInWindow_sub. intros y Hy Hcov.
      destruct (decide (y <= x)); [lia|]. exfalso. apply (Hlast y); [lia|done]. }
    rewrite elem_of_violationDays, !(used_chain_count _ _ _ Hc).
    split; [|done]. split; [lia|]. split; [done|lia].
  - exfalso. unfold daysInWindow in Hover.
    rewrite length_filter_none in Hover; [simpl in Hover; lia|].
    apply Forall_forall. intros y Hy. apply Hnone.
    unfold window in Hy. apply elem_of_seqZ in Hy. lia.
Qed.

Lemma overstay_is_reported_witness :
  exists x, x ∈ violationDays [interval 0 99] 150 /\
    calculateUsedDaysWithinWindow [interval 0 99] 150 <=
      calculateUsedDaysWithinWindow [interval 0 99] x.
Proof.
  destruct (overstay_is_reported [interval 0 99] 150) as (x & Hx & Hle & _).
  - repeat constructor.
  - reflexivity.
  - by exists x.
Defined.

(** X14. When no trip of the history ends after the reference date, the
    dashboard never promises fewer days than it shows as remaining: the
    longest stay from the next day is at least [remaining], which lies
    between 0 and 90. *)
Theorem dashboard_remaining_is_safe (trips : list Trip) (refDate : Z) :
  (forall t, t ∈ trips -> exitDate t <= refDate) ->
  let stats := dashboardStats trips refDate in
  0 <= remaining stats <= 90 /\
  remaining stats <= maxDays (maxStay stats).
Proof.
  intros Hpast stats. subst stats. unfold dashboardStats, addDays, format, parseISO.
  cbn [remaining maxStay].
  pose proof (used_nonneg trips refDate) as Hnn.
  set (u := calculateUsedDaysWithinWindow trips refDate) in *.
  split; [lia|].
  destruct (maxDays_facts trips (refDate + 1)) as (Hb & _ & Hfail).
  cbv zeta in *. set (L := maxDays (getMaxSafeStayFromDate trips (refDate + 1))) in *.
  destruct (decide (Z.max 0 (90 - u) <= L)) as [|Hgt]; [done|]. exfalso.
  assert (isAllowed (canStayForPeriod trips (refDate + 1) (refDate + (90 - u)))
          = true) as Hall.
  { apply canStay_allowed_iff. intros d Hd. rewrite combinedTrips_used.
    rewrite (list_filter_iff_daysInWindow trips refDate (90 - u) d).
    etrans; [apply daysInWindow_or_le|].
    assert (daysInWindow (covers trips) d <= u) as Hold.
    { etrans; [|apply covered_le_used]. apply daysInWindow_sub.
      intros x Hx (t & Ht & Hon)%covers_elem_of.
      specialize (Hpast t Ht). unfold onTrip in Hon. lia. }
    rewrite daysInWindow_interval. lia. }
  assert (isAllowed (canStayForPeriod trips (refDate + 1) (refDate + 1 + L))
          = true) as Hshort.
  { eapply (canStay_allowed_anti trips trips); [done| |exact Hall]. lia. }
  rewrite Hfail in Hshort by lia. discriminate.
Qed.

Lemma dashboard_remaining_is_safe_witness :
  remaining (dashboardStats [interval 0 49] 100) = 40 /\
  40 <= maxDays (maxStay (dashboardStats [interval 0 49] 100)).
Proof.
  assert (remaining (dashboardStats [interval 0 49] 100) = 40) as Hr
    by reflexivity.
  split; [done|]. rewrite <- Hr.
  apply (dashboard_remaining_is_safe [interval 0 49] 100).
  intros t ->%list_elem_of_singleton. simpl. lia.
Defined.

(** X15. In every zone, the days that [CalendarView] shades as the
    180-day window are the days [D - 179 .. D], without the first one when
    the window starts late, and they are the days that count: a one-day
    trip on a shaded day adds 1 to the usage of the reference date, on any
    other day it adds nothing.  In Africa/Cairo on 26 April 2024 the first
    day of the window, 30 October 2023, is not shaded. *)
Theorem shaded_days_count (dayStart : Z -> Z) (trips : list Trip)
    (refDate day : Z) (id : string) :
  (Zoned.isInWindow dayStart refDate day = true <->
     refDate - 179 <= day <= refDate /\
     ~ (day = refDate - 179 /\
        Zoned.lateWindowStart dayStart refDate = true)) /\
  Zoned.calculateUsedDaysWithinWindow dayStart
      (mkTrip id day day :: trips) refDate =
    Zoned.calculateUsedDaysWithinWindow dayStart trips refDate +
    (if Zoned.isInWindow dayStart refDate day then 1 else 0) /\
  (Zoned.isInWindow Zoned.cairo 19839 19660 = false /\
   Zoned.isInWindow Zoned.cairo 19839 19661 = true /\
   Zoned.isInWindow Zoned.cairo 19838 19659 = true).
Proof.
  pose proof (zoned_isInWindow dayStart refDate day) as Hin.
  split; [done|]. split; [|done].
  rewrite !zoned_used, !used_sum, filter_cons. csimpl.
  rewrite overlapDays_eq. unfold endsOn at 1. cbn [entryDate exitDate].
  destruct (Zoned.lateWindowStart dayStart refDate) eqn:Hlate;
    destruct (Zoned.isInWindow dayStart refDate day) eqn:Hw.
  - destruct Hin as [Hin _]. specialize (Hin eq_refl).
    case_decide; cbn [length]; lia.
  - assert (~ (refDate - 179 <= day <= refDate /\
               ~ (day = refDate - 179 /\ true = true))) as Hout
      by (intros Hb; apply Hin in Hb; discriminate).
    case_decide; cbn [length]; lia.
  - destruct Hin as [Hin _]. specialize (Hin eq_refl). lia.
  - assert (~ (refDate - 179 <= day <= refDate /\
               ~ (day = refDate - 179 /\ false = true))) as Hout
      by (intros Hb; apply Hin in Hb; discriminate).
    assert (~ (refDate - 179 <= day <= refDate)) by (intros ?; apply Hout; split; [done|]; by intros [_ ?]).
    lia.
Qed.

(** ** The store *)

Lemma find_unique (l : list Profile) (p : Profile) :
  NoDup (profile_id <$> l) -> p ∈ l ->
  List.find (fun q => bool_decide (profile_id q = profile_id p)) l = Some p.
Proof.
  induction l as [|q l IH]; intros Hnd Hp; [by apply elem_of_nil in Hp|].
  csimpl in Hnd. apply NoDup_cons in Hnd as [Hq Hnd]. simpl.
  apply elem_of_cons in Hp as [->|Hp].
  - by rewrite bool_decide_eq_true_2.
  - rewrite bool_decide_eq_false_2; [by apply IH|].
    intros Heq. apply Hq. rewrite Heq. by apply list_elem_of_fmap_2.
Qed.

Lemma activeProfile_found (s : Store) :
  storeOk s ->
  exists p, activeProfile s = Some p /\ p ∈ profiles s /\
            profile_id p = activeProfileId s.
Proof.
  intros [Hnd Hact]. apply list_elem_of_fmap in Hact as (p & Hid & Hp).
  exists p. split; [|done]. unfold activeProfile.
  by rewrite Hid, (find_unique _ p Hnd Hp).
Qed.

(** A change of the active profile that keeps its identifier. *)
Lemma store_map_active (f : Profile -> Profile) (s : Store) (p : Profile) :
  (forall q, profile_id (f q) = profile_id q) ->
  storeOk s -> activeProfile s = Some p ->
  let s' := {| profiles :=
                 (fun q => if decide (profile_id q <> activeProfileId s) then q
                           else f q) <$> profiles s;
               activeProfileId := activeProfileId s |} in
  storeOk s' /\ activeProfile s' = Some (f p) /\
  profile_id <$> profiles s' = profile_id <$> profiles s /\
  (forall i q, profiles s !! i = Some q ->
     profile_id q <> activeProfileId s -> profiles s' !! i = Some q).
Proof.
  intros Hf Hok Hp s'.
  destruct (activeProfile_found s Hok) as (p' & Hp' & Hin & Hid).
  rewrite Hp in Hp'. injection Hp' as <-.
  assert (profile_id <$> profiles s' = profile_id <$> profiles s) as Hids.
  { subst s'. cbn [profiles]. rewrite <- list_fmap_compose.
    apply list_fmap_ext. intros _ q _. simpl. by case_decide. }
  assert (storeOk s') as Hok'.
  { destruct Hok as [Hnd Hact]. split; by rewrite Hids. }
  split; [done|]. split; [|split; [done|]].
  - unfold activeProfile. cbn [activeProfileId s'].
    assert (f p ∈ profiles s') as Hfp.
    { subst s'. cbn [profiles]. apply list_elem_of_fmap. exists p.
      split; [|done]. by rewrite decide_False by (intros Hne; by apply Hne). }
    rewrite <- Hid, <- (Hf p).
    by rewrite (find_unique _ (f p) (proj1 Hok') Hfp).
  - intros i q Hi Hq. subst s'. cbn [profiles].
    rewrite list_lookup_fmap, Hi. simpl. by rewrite decide_True.
Qed.

(** X16. [addProfile] never lets the store grow beyond 20 profiles (at 20
    it changes nothing); below 20, with a fresh identifier, it keeps the
    identifiers distinct and makes the new, empty profile the active one. *)
Theorem addProfile_spec (newId name : string) (s : Store) :
  ((length (profiles s) <= MAX_PROFILES)%nat ->
   (length (profiles (addProfile newId name s)) <= MAX_PROFILES)%nat) /\
  ((MAX_PROFILES <= length (profiles s))%nat -> addProfile newId name s = s) /\
  ((length (profiles s) < MAX_PROFILES)%nat ->
   NoDup (profile_id <$> profiles s) ->
   newId ∉ (profile_id <$> profiles s) ->
   storeOk (addProfile newId name s) /\
   activeProfile (addProfile newId name s) =
     Some {| profile_id := newId; name := name; trips := [] |}).
Proof.
  unfold addProfile. split; [|split].
  - intros Hlen. case_decide; [done|]. cbn [profiles].
    rewrite length_app. simpl. lia.
  - intros Hlen. by rewrite decide_True.
  - intros Hlen Hnd Hfresh. rewrite decide_False by lia.
    set (new := {| profile_id := newId; name := name; trips := [] |}).
    assert (storeOk {| profiles := profiles s ++ [new];
                       activeProfileId := newId |}) as Hok.
    { split; cbn [profiles activeProfileId]; rewrite fmap_app; simpl.
      - apply NoDup_app. split; [done|]. split; [|apply NoDup_singleton].
        intros x Hx ->%list_elem_of_singleton. done.
      - apply elem_of_app. right. by left. }
    split; [done|].
    assert (new ∈ profiles s ++ [new]) as Hnew
      by (apply elem_of_app; right; by left).
    pose proof (find_unique _ new (proj1 Hok) Hnew) as Hfind.
    unfold activeProfile. subst new.
    cbn [profiles activeProfileId profile_id] in *. by rewrite Hfind.
Qed.

Lemma addProfile_spec_witness :
  activeProfile (addProfile "id2" "Spouse" initialStore) =
    Some {| profile_id := "id2"; name := "Spouse"; trips := [] |}.
Proof.
  apply (addProfile_spec "id2" "Spouse" initialStore).
  - unfold MAX_PROFILES. simpl. lia.
  - simpl. apply NoDup_singleton.
  - simpl. by intros [=]%list_elem_of_singleton.
Defined.

(** X17. On a store whose identifiers are distinct and whose active
    profile exists, [removeProfile] does not fail, never removes the last
    profile, removes the given identifier when there are two profiles or
    more, keeps the other profiles, and leaves an active profile that
    exists: the same one, unless it was the one removed. *)
Theorem removeProfile_spec (id : string) (s : Store) :
  storeOk s ->
  exists s', removeProfile id s = Some s' /\ storeOk s' /\
    (1 <= length (profiles s'))%nat /\
    ((1 < length (profiles s))%nat -> id ∉ (profile_id <$> profiles s')) /\
    (forall p, p ∈ profiles s' <->
       p ∈ profiles s /\ ((1 < length (profiles s))%nat -> profile_id p <> id)) /\
    (activeProfileId s <> id -> activeProfileId s' = activeProfileId s).
Proof.
  intros [Hnd Hact]. unfold removeProfile.
  assert (1 <= length (profiles s))%nat as Hne.
  { apply list_elem_of_fmap in Hact as (p & _ & Hp).
    destruct (profiles s); [by apply elem_of_nil in Hp|simpl; lia]. }
  case_decide as Hlen.
  { exists s. split; [done|]. split; [done|]. split; [done|].
    split; [lia|]. split; [|done]. intros p. split; [|by intros [? _]].
    intros Hp. split; [done|lia]. }
  set (newProfiles := filter (fun p => profile_id p <> id) (profiles s)).
  assert (NoDup (profile_id <$> newProfiles)) as Hnd'.
  { eapply sublist_NoDup; [exact Hnd|]. apply fmap_sublist, sublist_filter. }
  assert (id ∉ (profile_id <$> newProfiles)) as Hgone.
  { intros (p & -> & [Hp _]%list_elem_of_filter)%list_elem_of_fmap. done. }
  assert (forall p, p ∈ newProfiles <->
            p ∈ profiles s /\ ((1 < length (profiles s))%nat ->
                               profile_id p <> id)) as Hmem.
  { intros p. subst newProfiles. rewrite list_elem_of_filter.
    split; [intros [? ?]; by split|]. intros [? Hp]. split; [apply Hp; lia|done]. }
  case_decide as Hid.
  - destruct newProfiles as [|p rest] eqn:Hnew.
    + exfalso. destruct (profiles s) as [|a [|b l]] eqn:Hps;
        [simpl in *; lia..|].
      assert (profile_id a = id) as Ha.
      { destruct (decide (profile_id a = id)) as [|Hna]; [done|].
        assert (a ∈ ([] : list Profile)) as Hin
          by (apply Hmem; split; [left|done]).
        by apply elem_of_nil in Hin. }
      assert (profile_id b = id) as Hb.
      { destruct (decide (profile_id b = id)) as [|Hnb]; [done|].
        assert (b ∈ ([] : list Profile)) as Hin
          by (apply Hmem; split; [right; left|done]).
        by apply elem_of_nil in Hin. }
      csimpl in Hnd. apply NoDup_cons in Hnd as [Hnd _].
      apply Hnd. rewrite Ha, <- Hb. left.
    + eexists. split; [done|]. cbn [profiles activeProfileId].
      split; [|split; [simpl; lia|split; [by intros _|split; [done|done]]]].
      split; [done|]. cbn [profiles activeProfileId]. csimpl. left.
  - eexists. split; [done|]. cbn [profiles activeProfileId].
    assert (activeProfileId s ∈ (profile_id <$> newProfiles)) as Hact'.
    { apply list_elem_of_fmap in Hact as (p & Hpid & Hp).
      apply list_elem_of_fmap. exists p. split; [done|].
      apply Hmem. split; [done|]. intros _. by rewrite <- Hpid. }
    split; [by split|]. split.
    + destruct newProfiles; [by apply elem_of_nil in Hact'|simpl; lia].
    + split; [by intros _|]. split; [done|done].
Qed.

Lemma removeProfile_spec_witness :
  removeProfile "default" (addProfile "id2" "Spouse" initialStore) =
    Some {| profiles := [ {| profile_id := "id2"; name := "Spouse";
                             trips := [] |} ];
            activeProfileId := "id2" |}.
Proof.
  destruct (removeProfile_spec "default"
              (addProfile "id2" "Spouse" initialStore)) as (s' & Hs' & _).
  - split; vm_compute.
    + apply NoDup_cons. split; [|apply NoDup_singleton].
      by intros [=]%list_elem_of_singleton.
    + right. left.
  - rewrite Hs'. vm_compute in Hs'. by injection Hs' as <-.
Defined.

Lemma storeToggleDate_active uuid d s p :
  storeOk s -> activeProfile s = Some p ->
  storeOk (storeToggleDate uuid d s) /\
  activeProfile (storeToggleDate uuid d s) = Some (toggleProfile uuid p d) /\
  profile_id <$> profiles (storeToggleDate uuid d s) =
    profile_id <$> profiles s /\
  (forall i q, profiles s !! i = Some q ->
     profile_id q <> activeProfileId s ->
     profiles (storeToggleDate uuid d s) !! i = Some q).
Proof.
  intros Hok Hp.
  apply (store_map_active (fun q => toggleProfile uuid q d) s p); done.
Qed.

Lemma storeAddTripRange_active uuid a b s p :
  storeOk s -> activeProfile s = Some p ->
  storeOk (storeAddTripRange uuid a b s) /\
  activeProfile (storeAddTripRange uuid a b s) =
    Some (addRangeProfile uuid p a b) /\
  profile_id <$> profiles (storeAddTripRange uuid a b s) =
    profile_id <$> profiles s /\
  (forall i q, profiles s !! i = Some q ->
     profile_id q <> activeProfileId s ->
     profiles (storeAddTripRange uuid a b s) !! i = Some q).
Proof.
  intros Hok Hp.
  apply (store_map_active (fun q => addRangeProfile uuid q a b) s p); done.
Qed.

Lemma covers_addRangeProfile uuid p a b x :
  covers (trips (addRangeProfile uuid p a b)) x <->
  covers (trips p) x \/ Z.min a b <= x <= Z.max a b.
Proof.
  unfold addRangeProfile, updateTripsFromSet. cbn [trips].
  rewrite covers_collapse, elem_of_addAll, elem_of_expandTrips.
  unfold eachDayOfInterval, format, isBefore, isAfter, parseISO.
  rewrite list_elem_of_fmap.
  assert ((exists y, x = y /\
             y ∈ seqZ (if a <? b then a else b)
                   ((if b <? a then a else b) - (if a <? b then a else b) + 1))
          <-> Z.min a b <= x <= Z.max a b) as ->; [|done].
  setoid_rewrite elem_of_seqZ.
  destruct (Z.ltb_spec a b), (Z.ltb_spec b a); split;
    try (intros (y & -> & ?); lia); intros ?; exists x; lia.
Qed.

(** X18. On a store whose identifiers are distinct and whose active
    profile exists, [toggleDate] and [addTripRange] replace the trips of
    the active profile only: the identifiers and their order stay, every
    other profile stays in its place unchanged, and the invariant of the
    store is kept. *)
Theorem edits_touch_active_profile_only (uuid : nat -> string) (s : Store)
    (d a b : Z) :
  storeOk s ->
  exists p, activeProfile s = Some p /\ profile_id p = activeProfileId s /\
    forall s' p',
      (s' = storeToggleDate uuid d s /\ p' = toggleProfile uuid p d) \/
      (s' = storeAddTripRange uuid a b s /\ p' = addRangeProfile uuid p a b) ->
      storeOk s' /\ activeProfile s' = Some p' /\
      name p' = name p /\
      profile_id <$> profiles s' = profile_id <$> profiles s /\
      forall i q, profiles s !! i = Some q ->
        profile_id q <> activeProfileId s -> profiles s' !! i = Some q.
Proof.
  intros Hok. destruct (activeProfile_found s Hok) as (p & Hp & _ & Hid).
  exists p. split; [done|]. split; [done|].
  intros s' p' [[-> ->]|[-> ->]].
  - destruct (storeToggleDate_active uuid d s p Hok Hp) as (? & ? & ? & ?).
    split; [done|]. split; [done|]. split; [reflexivity|]. by split.
  - destruct (storeAddTripRange_active uuid a b s p Hok Hp) as (? & ? & ? & ?).
    split; [done|]. split; [done|]. split; [reflexivity|]. by split.
Qed.

Lemma edits_touch_active_profile_only_witness :
  activeProfile (storeToggleDate (fun _ => "id") 10 initialStore) =
    Some {| profile_id := "default"; name := "Me";
            trips := [mkTrip "id" 10 10] |}.
Proof.
  destruct (edits_touch_active_profile_only (fun _ => "id") initialStore 10 0 0)
    as (p & Hp & _ & Hedit).
  - split; simpl; [apply NoDup_singleton|by left].
  - vm_compute in Hp. injection Hp as <-.
    destruct (Hedit _ _ (or_introl (conj eq_refl eq_refl))) as (_ & -> & _).
    vm_compute. reflexivity.
Defined.

Lemma isPresentOnRefDate_active d s p :
  activeProfile s = Some p ->
  isPresentOnRefDate d s = Some (bool_decide (covers (trips p) d)).
Proof.
  intros Hp. unfold isPresentOnRefDate. rewrite Hp. f_equal.
  apply bool_decide_ext, elem_of_expandTrips.
Qed.

(** X19. On a store whose identifiers are distinct and whose active
    profile exists, the button "Inside" leaves the traveller present on
    the reference date and the button "Outside" leaves the traveller
    absent on it; neither changes another day, and pressing the same
    button again changes nothing. *)
Theorem inside_outside_buttons (uuid uuid' : nat -> string) (s : Store)
    (refDate : Z) :
  storeOk s ->
  exists p, activeProfile s = Some p /\
    (exists s' p', pressInside uuid refDate s = Some s' /\ storeOk s' /\
       activeProfile s' = Some p' /\ covers (trips p') refDate /\
       (forall x, x <> refDate -> covers (trips p') x <-> covers (trips p) x) /\
       pressInside uuid' refDate s' = Some s') /\
    (exists s' p', pressOutside uuid refDate s = Some s' /\ storeOk s' /\
       activeProfile s' = Some p' /\ ~ covers (trips p') refDate /\
       (forall x, x <> refDate -> covers (trips p') x <-> covers (trips p) x) /\
       pressOutside uuid' refDate s' = Some s').
Proof.
  intros Hok. destruct (activeProfile_found s Hok) as (p & Hp & _ & _).
  exists p. split; [done|].
  destruct (storeToggleDate_active uuid refDate s p Hok Hp) as (Hok' & Hp' & _).
  pose proof (covers_toggleProfile uuid p refDate) as Hcov.
  unfold pressInside, pressOutside.
  rewrite !(isPresentOnRefDate_active refDate s p Hp).
  destruct (decide (covers (trips p) refDate)) as [Hin|Hout].
  - rewrite bool_decide_eq_true_2 by done. split.
    + exists s, p. rewrite (isPresentOnRefDate_active refDate s p Hp).
      by rewrite bool_decide_eq_true_2.
    + exists (storeToggleDate uuid refDate s), (toggleProfile uuid p refDate).
      assert (~ covers (trips (toggleProfile uuid p refDate)) refDate) as Hnow
        by (rewrite Hcov; tauto).
      rewrite (isPresentOnRefDate_active refDate _ _ Hp').
      rewrite bool_decide_eq_false_2 by done.
      repeat (split; [done|]). split; [|done].
      intros x Hx. rewrite Hcov. tauto.
  - rewrite bool_decide_eq_false_2 by done. split.
    + exists (storeToggleDate uuid refDate s), (toggleProfile uuid p refDate).
      assert (covers (trips (toggleProfile uuid p refDate)) refDate) as Hnow
        by (rewrite Hcov; tauto).
      rewrite (isPresentOnRefDate_active refDate _ _ Hp').
      rewrite bool_decide_eq_true_2 by done.
      repeat (split; [done|]). split; [|done].
      intros x Hx. rewrite Hcov. tauto.
    + exists s, p. rewrite (isPresentOnRefDate_active refDate s p Hp).
      by rewrite bool_decide_eq_false_2.
Qed.

Lemma inside_outside_buttons_witness :
  exists s', pressInside (fun _ => "id") 10 initialStore = Some s' /\
             pressInside (fun _ => "id2") 10 s' = Some s'.
Proof.
  destruct (inside_outside_buttons (fun _ => "id") (fun _ => "id2")
              initialStore 10) as (p & _ & (s' & p' & Hs' & _ & _ & _ & _ & Hagain) & _).
  - split; simpl; [apply NoDup_singleton|by left].
  - by exists s'.
Defined.

(** X20. In range mode two presses, on [a] and then on [b], add the days
    between [a] and [b] (in either order) to the active profile and no
    other day, and leave range mode. *)
Theorem range_mode_two_presses (uuid : nat -> string) (s : Store) (a b : Z) :
  storeOk s ->
  let r0 := {| rangeMode := true; rangeStart := None |} in
  exists p p' s',
    activeProfile s = Some p /\
    handleDatePress uuid b (handleDatePress uuid a (r0, s)) =
      ({| rangeMode := false; rangeStart := None |}, s') /\
    storeOk s' /\ activeProfile s' = Some p' /\
    forall x, covers (trips p') x <->
      covers (trips p) x \/ Z.min a b <= x <= Z.max a b.
Proof.
  intros Hok r0. destruct (activeProfile_found s Hok) as (p & Hp & _ & _).
  destruct (storeAddTripRange_active uuid a b s p Hok Hp) as (Hok' & Hp' & _).
  exists p, (addRangeProfile uuid p a b), (storeAddTripRange uuid a b s).
  split; [done|]. split; [done|]. split; [done|]. split; [done|].
  intros x. apply covers_addRangeProfile.
Qed.

Lemma range_mode_two_presses_witness :
  exists p', activeProfile
               (snd (handleDatePress (fun _ => "id") 15
                       (handleDatePress (fun _ => "id") 20
                          ({| rangeMode := true; rangeStart := None |},
                           initialStore)))) = Some p' /\
             covers (trips p') 17.
Proof.
  destruct (range_mode_two_presses (fun _ => "id") initialStore 20 15)
    as (p & p' & s' & Hp & Hs' & _ & Hp' & Hcov).
  - split; simpl; [apply NoDup_singleton|by left].
  - exists p'. rewrite Hs'. split; [done|]. apply Hcov. right. lia.
Defined.

(** ** The trip checker and the calendar grid *)

(** X21. [addDuration] with a number of days that is not negative always
    leaves an exit date not before the entry date.  On a range that is
    already in order it lengthens the trip by that number of days, so two
    presses add up; on an exit date before the entry date it counts from
    the entry date. *)
Theorem addDuration_spec (entry exit days : Z) :
  0 <= days ->
  entry <= addDuration entry exit days /\
  (entry <= exit ->
     duration entry (addDuration entry exit days) = duration entry exit + days /\
     forall days', 0 <= days' ->
       addDuration entry (addDuration entry exit days) days' =
         addDuration entry exit (days + days')) /\
  (exit < entry -> addDuration entry exit days = entry + days).
Proof.
  intros Hd. unfold addDuration, duration, isBefore, addDays, format,
    differenceInCalendarDays, parseISO.
  split; [|split].
  - destruct (Z.ltb_spec exit entry); lia.
  - intros Hle. destruct (Z.ltb_spec exit entry); [lia|]. split.
    + destruct (Z.ltb_spec (exit + days) entry); lia.
    + intros days' Hd'. destruct (Z.ltb_spec (exit + days) entry); lia.
  - intros Hlt. by destruct (Z.ltb_spec exit entry); [|lia].
Qed.

Lemma addDuration_spec_witness :
  addDuration 1 (addDuration 1 1 7) 7 = addDuration 1 1 (7 + 7) /\
  addDuration 1 1 (7 + 7) = 15.
Proof.
  split; [|reflexivity].
  assert (0 <= 7) as H7 by lia. assert (1 <= 1) as H1 by lia.
  destruct (addDuration_spec 1 1 7 H7) as (_ & Hvalid & _).
  destruct (Hvalid H1) as [_ Hadd]. by apply Hadd.
Defined.

(** X22. For a first day of the week between 0 and 6,
    [startOfWeekPolyfill] returns the last day, not after the given date,
    whose day of the week is that first day: it is at most 6 days
    back. *)
Theorem startOfWeekPolyfill_spec (date weekStartsOn : Z) :
  0 <= weekStartsOn <= 6 ->
  let r := startOfWeekPolyfill date weekStartsOn in
  date - 6 <= r <= date /\ getDay r = weekStartsOn /\
  forall d, r < d <= date -> getDay d <> weekStartsOn.
Proof.
  intros Hw r. subst r. unfold startOfWeekPolyfill, getDay, addDays.
  pose proof (Z.mod_pos_bound (date + 4) 7 ltac:(lia)) as Hday.
  pose proof (Z.div_mod (date + 4) 7 ltac:(lia)) as Hdm.
  set (day := (date + 4) mod 7) in *. set (q := (date + 4) / 7) in *.
  destruct (Z.ltb_spec day weekStartsOn) as [Hlt|Hge].
  - split; [lia|]. split.
    + symmetry. apply (Z.mod_unique_pos _ 7 (q - 1)); lia.
    + intros d Hd Heq. rewrite <- Heq in *.
      pose proof (Z.mod_pos_bound (d + 4) 7 ltac:(lia)) as Hdb.
      pose proof (Z.div_mod (d + 4) 7 ltac:(lia)) as Hddm.
      set (dd := (d + 4) mod 7) in *. set (dq := (d + 4) / 7) in *. nia.
  - split; [lia|]. split.
    + symmetry. apply (Z.mod_unique_pos _ 7 q); lia.
    + intros d Hd Heq. rewrite <- Heq in *.
      pose proof (Z.mod_pos_bound (d + 4) 7 ltac:(lia)) as Hdb.
      pose proof (Z.div_mod (d + 4) 7 ltac:(lia)) as Hddm.
      set (dd := (d + 4) mod 7) in *. set (dq := (d + 4) / 7) in *. nia.
Qed.

Lemma startOfWeekPolyfill_spec_witness :
  startOfWeekPolyfill 19723 1 = 19723 /\ getDay (startOfWeekPolyfill 19727 1) = 1.
Proof.
  split; [reflexivity|].
  apply (startOfWeekPolyfill_spec 19727 1). lia.
Defined.

(** ** The second implementation *)

Lemma foldl_count {A} (f : A -> bool) (l : list A) (z : Z) :
  foldl (fun n x => if f x then n + 1 else n) z l =
    z + Z.of_nat (length (filter (fun x => f x = true) l)).
Proof.
  revert z. induction l as [|x l IH]; intros z; simpl; [lia|].
  rewrite IH, filter_cons. destruct (f x); case_decide; simpl; try done; lia.
Qed.

Lemma length_filter_fmap {A B} (f : A -> B) (P : B -> Prop)
    `{forall y, Decision (P y)} (l : list A) :
  length (filter P (f <$> l)) = length (filter (fun x => P (f x)) l).
Proof.
  induction l as [|x l IH]; [done|]. csimpl. rewrite !filter_cons.
  case_decide; simpl; by rewrite IH.
Qed.

Lemma length_filter_mono_gen {A} (P Q : A -> Prop)
    `{forall x, Decision (P x)} `{forall x, Decision (Q x)} (l : list A) :
  (forall x, x ∈ l -> P x -> Q x) ->
  (length (filter P l) <= length (filter Q l))%nat.
Proof.
  induction l as [|x l IH]; intros Himp; [done|].
  rewrite !filter_cons.
  assert (length (filter P l) <= length (filter Q l))%nat
    by (apply IH; intros y Hy; apply Himp; by right).
  destruct (decide (P x)) as [HP|], (decide (Q x)) as [|HQ]; simpl; try lia.
  exfalso. apply HQ, Himp; [by left|done].
Qed.

Lemma calculateDaysInWindow_count selectedDates referenceDate :
  AppPage.calculateDaysInWindow selectedDates referenceDate =
    Z.of_nat (length (filter
      (fun date => referenceDate - 180 * AppPage.msPerDay <= date <= referenceDate)
      selectedDates)).
Proof.
  unfold AppPage.calculateDaysInWindow.
  rewrite (foldl_count
    (fun date => (referenceDate - 180 * AppPage.msPerDay <=? date)
                 && (date <=? referenceDate))).
  rewrite Z.add_0_l. f_equal. f_equal. apply list_filter_iff. intros date.
  rewrite andb_true_iff, !Z.leb_le. done.
Qed.

Lemma zoned_calculateDaysInWindow_count (dayStart : Z -> Z) (days : list Z)
    (D t : Z) :
  Z.max 0 (dayStart D) <= t -> Z.max 0 (dayStart (D - 180)) < t ->
  Zoned.calculateDaysInWindow dayStart (Zoned.parseISO dayStart <$> days)
    (D, t) =
  Z.of_nat (length (filter (fun d => D - 179 <= d <= D) days)).
Proof.
  intros HD Hw. unfold Zoned.calculateDaysInWindow.
  rewrite (foldl_count
    (fun date =>
       negb (Zoned.isBefore date
               (Zoned.resolve dayStart (fst (D, t) - 180) (snd (D, t))))
       && negb (Zoned.isBefore (D, t) date))).
  rewrite Z.add_0_l, length_filter_fmap. f_equal. f_equal.
  apply list_filter_iff. intros d.
  rewrite andb_true_iff, !negb_true_iff, !zoned_isBefore_false_iff.
  pose proof (zoned_parseISO_time dayStart d) as Ht.
  rewrite zoned_parseISO_day. unfold Zoned.resolve. cbn [fst snd] in *.
  destruct (Z.ltb_spec t (dayStart (D - 180))); [lia|].
  destruct (decide (d = D - 180)) as [->|]; [lia|].
  destruct (decide (d = D)) as [->|]; lia.
Qed.

(** X23. The two implementations, in every zone: for days selected at the
    start of the day, each once, and a reference time after the start of
    its day and of the day 180 days before, the count of
    [calculateDaysInWindow] of [src/app/page.tsx] is the usage that
    [calculateUsedDaysWithinWindow] gives on the trips built from the same
    days, plus the day that one loses at the edge of a window that starts
    late.  The two agree when the reference date has a 00:00. *)
Theorem implementations_agree (dayStart : Z -> Z) (uuid : nat -> string)
    (days : list Z) (D t : Z) :
  NoDup days ->
  Z.max 0 (dayStart D) <= t -> Z.max 0 (dayStart (D - 180)) < t ->
  let page :=
    Zoned.calculateDaysInWindow dayStart (Zoned.parseISO dayStart <$> days)
      (D, t) in
  let main :=
    Zoned.calculateUsedDaysWithinWindow dayStart
      (collapse uuid (list_to_set days)) D in
  page = main + windowEdgeLost dayStart (fun d => d ∈ days) D /\
  (dayStart D <= 0 -> page = main).
Proof.
  intros Hnd HD Hw page main. subst page main.
  assert (Zoned.calculateDaysInWindow dayStart
            (Zoned.parseISO dayStart <$> days) (D, t) =
          Zoned.calculateUsedDaysWithinWindow dayStart
            (collapse uuid (list_to_set days)) D +
          windowEdgeLost dayStart (fun d => d ∈ days) D) as Heq.
  { rewrite zoned_calculateDaysInWindow_count by done.
    destruct (collapse_spec uuid (list_to_set days)) as ([lo Hc] & _ & Hcov).
    rewrite (zoned_used_chain dayStart _ _ D Hc).
    rewrite (windowEdgeLost_ext dayStart (covers _) (fun d => d ∈ days))
      by (intros d; by rewrite Hcov, elem_of_list_to_set).
    rewrite (daysInWindow_ext (covers _) (fun d => d ∈ days))
      by (intros d; by rewrite Hcov, elem_of_list_to_set).
    unfold daysInWindow.
    assert (length (filter (fun d => D - 179 <= d <= D) days) =
            length (filter (fun d => d ∈ days) (window D))) as ->; [|lia].
    apply Permutation_length, NoDup_Permutation.
    - by apply NoDup_filter.
    - apply NoDup_filter, NoDup_seqZ.
    - intros d. rewrite !list_elem_of_filter. unfold window.
      rewrite elem_of_seqZ. intuition lia. }
  split; [done|]. intros Hmid.
  rewrite Heq, windowEdgeLost_midnight by done. lia.
Qed.

Lemma implementations_agree_witness :
  Zoned.calculateDaysInWindow Zoned.cairo
    (Zoned.parseISO Zoned.cairo <$> [19839; 19000; 19660; 19700])
    (19839, 43200000) = 3 /\
  Zoned.calculateUsedDaysWithinWindow Zoned.cairo
    (collapse (fun _ => "id") (list_to_set [19839; 19000; 19660; 19700]))
    19839 = 2.
Proof.
  assert (NoDup [19839; 19000; 19660; 19700]) as Hnd
    by (apply (bool_decide_unpack _); vm_compute; exact I).
  assert (Z.max 0 (Zoned.cairo 19839) <= 43200000) as HD
    by (vm_compute; discriminate).
  assert (Z.max 0 (Zoned.cairo (19839 - 180)) < 43200000) as Hw
    by reflexivity.
  destruct (implementations_agree Zoned.cairo (fun _ => "id")
              [19839; 19000; 19660; 19700] 19839 43200000 Hnd HD Hw)
    as [Heq _].
  assert (Zoned.calculateDaysInWindow Zoned.cairo
            (Zoned.parseISO Zoned.cairo <$> [19839; 19000; 19660; 19700])
            (19839, 43200000) = 3) as Hpage by reflexivity.
  split; [exact Hpage|].
  rewrite Hpage in Heq.
  assert (windowEdgeLost Zoned.cairo
            (fun d => d ∈ [19839; 19000; 19660; 19700]) 19839 = 1) as Hlost
    by (vm_compute; reflexivity).
  rewrite Hlost in Heq. lia.
Defined.

Lemma nextEntryLoop_lookup runningTotal fromLast :
  0 <= runningTotal <= 90 ->
  AppPagePlan.nextEntryLoop runningTotal fromLast =
    (fun date => date + 180 * AppPage.msPerDay) <$>
      fromLast !! Z.to_nat (90 - runningTotal).
Proof.
  revert runningTotal. induction fromLast as [|date rest IH];
    intros runningTotal Hrt; simpl; [done|].
  destruct (Z.ltb_spec 90 (runningTotal + 1)).
  - by replace (90 - runningTotal) with 0 by lia.
  - rewrite IH by lia.
    replace (Z.to_nat (90 - runningTotal))
      with (S (Z.to_nat (90 - (runningTotal + 1)))) by lia.
    done.
Qed.

(** X24. [calculateNextEntryDate] answers null when the count of the
    window is at most 90; when it is more, it always answers a date: 180
    days after the 91st of the selected dates counted from the latest. *)
Theorem calculateNextEntryDate_spec (selectedDates : list Z) (now : Z) :
  (AppPage.calculateDaysInWindow selectedDates now <= 90 ->
   AppPagePlan.calculateNextEntryDate selectedDates now = None) /\
  (90 < AppPage.calculateDaysInWindow selectedDates now ->
   exists date,
     reverse (merge_sort Z.le selectedDates) !! 90%nat = Some date /\
     AppPagePlan.calculateNextEntryDate selectedDates now =
       Some (date + 180 * AppPage.msPerDay)).
Proof.
  unfold AppPagePlan.calculateNextEntryDate. split; intros Hused.
  - by destruct (Z.leb_spec (AppPage.calculateDaysInWindow selectedDates now) 90);
      [|lia].
  - destruct (Z.leb_spec (AppPage.calculateDaysInWindow selectedDates now) 90);
      [lia|].
    rewrite nextEntryLoop_lookup by lia. change (Z.to_nat (90 - 0)) with 90%nat.
    assert (90 < length (reverse (merge_sort Z.le selectedDates)))%nat as Hlen.
    { rewrite length_reverse, (Permutation_length (merge_sort_Permutation _ _)).
      rewrite calculateDaysInWindow_count in Hused.
      pose proof (length_filter
        (fun date => now - 180 * AppPage.msPerDay <= date <= now) selectedDates).
      lia. }
    apply lookup_lt_is_Some_2 in Hlen as [date Hdate].
    exists date. by rewrite Hdate.
Qed.

Lemma calculateNextEntryDate_spec_witness :
  exists date,
    AppPagePlan.calculateNextEntryDate
      ((fun d => d * AppPage.msPerDay) <$> seqZ 101 100)
      (200 * AppPage.msPerDay + 1) = Some (date + 180 * AppPage.msPerDay).
Proof.
  destruct (proj2 (calculateNextEntryDate_spec
                     ((fun d => d * AppPage.msPerDay) <$> seqZ 101 100)
                     (200 * AppPage.msPerDay + 1)))
    as (date & _ & Hsome).
  - vm_compute. reflexivity.
  - by exists date.
Defined.

Lemma availableDays_count selectedDates d :
  snd (AppPagePlan.calculateFutureStayInfo selectedDates d) =
    Z.max 0 (90 - Z.of_nat (length (filter
      (fun date => d - 180 * AppPage.msPerDay <= date < d) selectedDates))).
Proof.
  unfold AppPagePlan.calculateFutureStayInfo. cbn [snd].
  rewrite (foldl_count
    (fun date => (d - 180 * AppPage.msPerDay <=? date) && (date <? d))).
  rewrite Z.add_0_l. do 4 f_equal. apply list_filter_iff. intros date.
  rewrite andb_true_iff, Z.leb_le, Z.ltb_lt. done.
Qed.

Lemma maxContinuousLoop_S selectedDates fuel maxDays checkDate :
  AppPagePlan.maxContinuousLoop selectedDates (S fuel) maxDays checkDate =
    if 0 <? snd (AppPagePlan.calculateFutureStayInfo selectedDates checkDate)
    then AppPagePlan.maxContinuousLoop selectedDates fuel (maxDays + 1)
           (checkDate + AppPage.msPerDay)
    else maxDays.
Proof. reflexivity. Qed.

Lemma maxContinuousLoop_bounds selectedDates fuel maxDays checkDate :
  maxDays <= AppPagePlan.maxContinuousLoop selectedDates fuel maxDays checkDate
    <= maxDays + Z.of_nat fuel.
Proof.
  revert maxDays checkDate. induction fuel as [|fuel IH];
    intros maxDays checkDate; [simpl; lia|].
  rewrite maxContinuousLoop_S. destruct (0 <? _); [|lia].
  specialize (IH (maxDays + 1) (checkDate + AppPage.msPerDay)). lia.
Qed.

(** X25. [getMaxContinuousStay] answers between 0 and 90, and 0 exactly
    when no day is available on the start date.  It does not count the
    days of the stay itself: when every selected date is before the start
    date and a day is available there, however few, it answers 90. *)
Theorem getMaxContinuousStay_spec (selectedDates : list Z) (startDate : Z) :
  let available :=
    snd (AppPagePlan.calculateFutureStayInfo selectedDates startDate) in
  0 <= AppPagePlan.getMaxContinuousStay selectedDates startDate <= 90 /\
  (AppPagePlan.getMaxContinuousStay selectedDates startDate = 0 <->
   available = 0) /\
  ((forall date, date ∈ selectedDates -> date < startDate) ->
   0 < available ->
   AppPagePlan.getMaxContinuousStay selectedDates startDate = 90).
Proof.
  intros available. unfold AppPagePlan.getMaxContinuousStay.
  pose proof (maxContinuousLoop_bounds selectedDates 90 0 startDate) as Hb.
  assert (0 <= available) as Hav
    by (subst available; rewrite availableDays_count; lia).
  split; [lia|]. split.
  - change 90%nat with (S 89). rewrite maxContinuousLoop_S. fold available.
    destruct (Z.ltb_spec 0 available).
    + pose proof (maxContinuousLoop_bounds selectedDates 89 (0 + 1)
                    (startDate + AppPage.msPerDay)). lia.
    + split; [lia|done].
  - intros Hpast Hpos.
    assert (forall fuel maxDays checkDate, startDate <= checkDate ->
      AppPagePlan.maxContinuousLoop selectedDates fuel maxDays checkDate =
        maxDays + Z.of_nat fuel) as Hloop.
    { induction fuel as [|fuel IH]; intros maxDays checkDate Hle;
        [simpl; lia|]. rewrite maxContinuousLoop_S.
      assert (0 < snd (AppPagePlan.calculateFutureStayInfo selectedDates
                         checkDate)) as Hthere.
      { subst available. rewrite availableDays_count in Hpos |- *.
        pose proof (length_filter_mono_gen
          (fun date => checkDate - 180 * AppPage.msPerDay <= date < checkDate)
          (fun date => startDate - 180 * AppPage.msPerDay <= date < startDate)
          selectedDates) as Hmono.
        assert (forall date, date ∈ selectedDates ->
          checkDate - 180 * AppPage.msPerDay <= date < checkDate ->
          startDate - 180 * AppPage.msPerDay <= date < startDate) as Himp
          by (intros date Hin ?; specialize (Hpast date Hin); lia).
        specialize (Hmono Himp). lia. }
      destruct (Z.ltb_spec 0 (snd (AppPagePlan.calculateFutureStayInfo
                                    selectedDates checkDate))); [|lia].
      rewrite IH by (unfold AppPage.msPerDay; lia). lia. }
    rewrite Hloop by lia. done.
Qed.

Lemma getMaxContinuousStay_spec_witness :
  AppPagePlan.getMaxContinuousStay
    ((fun d => d * AppPage.msPerDay) <$> seqZ 100 89) (200 * AppPage.msPerDay)
  = 90.
Proof.
  apply (getMaxContinuousStay_spec
           ((fun d => d * AppPage.msPerDay) <$> seqZ 100 89)
           (200 * AppPage.msPerDay)).
  - apply Forall_forall. apply (bool_decide_unpack _). vm_compute. exact I.
  - vm_compute. reflexivity.
Defined.




